(** * skvx::Vec<N,T> (include/private/SkVx.h): a shallow embedding

    [Vec<N,T>] is a struct of two [Vec<N/2,T>] halves, down to the
    one-lane [Vec<1,T>] that holds a single [T].  The lane count is a power of
    two (checked by a static_assert), so a vector type is indexed here by the
    exponent [k], with [N = 2^k].

    The development follows the header from top to bottom: the container
    (constructors, [operator[]], [Load]/[store], [join]), the scalar element
    types, the two default strategies for the operators (Clang/GCC vector
    extensions, and the portable recursion on halves), then [if_then_else],
    [cast], [shuffle], the half-float conversions and the 8-bit helpers.
    The platform blocks guarded by [__AVX__], [__SSE4_1__], [__ARM_NEON],
    [__F16C__], [__aarch64__] and [__wasm_simd128__] call vendor intrinsics.
    The functions below are the header as preprocessed for a target that
    defines none of these macros; for [if_then_else], [to_half] and
    [from_half], whose results depend on the build, the functions
    [if_then_else_on], [to_half_on] and [from_half_on] take the build as an
    argument and follow every branch.  The other platform blocks are left
    out.

    Two smaller pieces follow the header: the sampler state class
    GrSamplerState, and the resource-state transition of
    src/gpu/d3d/GrD3DBuffer.cpp. *)

From Stdlib Require Import ZArith List Lia Bool.
Import ListNotations.
Local Open Scope Z_scope.

(** ** The container *)

Module Container.

(** [struct Vec { Vec<N/2,T> lo, hi; }] *)
Record Halves (V : Type) : Type := join { lo : V; hi : V }.
Arguments join {V} lo hi.
Arguments lo {V} _.
Arguments hi {V} _.

(** [Vec T k] is [Vec<2^k,T>]; [Vec<1,T>] is [struct { T val; }]. *)
Fixpoint Vec (T : Type) (k : nat) : Type :=
  match k with
  | O => T
  | S k' => Halves (Vec T k')
  end.

Definition val {T : Type} (x : Vec T 0) : T := x.

(** The template argument [N] of [Vec T k]. *)
Definition lanes (k : nat) : Z := 2 ^ Z.of_nat k.

(** [memcpy(dst, src, n*sizeof(T))] on arrays of lanes: the first [n] lanes of
    [dst] are replaced by the first [n] lanes of [src]. *)
Definition memcpy {T : Type} (dst src : list T) (n : nat) : list T :=
  firstn n src ++ skipn n dst.

Section Generic.

Context {T : Type}.

(** The value [T(0)]: what [T vals[N] = {0}] and [val(... : 0)] store. *)
Variable zero : T.

(** [Vec(U x) : lo(x), hi(x) {}] and [Vec(U x) : val(x) {}], after the
    conversion of [x] to [T]. *)
Fixpoint splat (k : nat) (x : T) : Vec T k :=
  match k with
  | O => x
  | S k' => join (splat k' x) (splat k' x)
  end.

(** [T operator[](int i) const { return i < N/2 ? lo[i] : hi[i-N/2]; }]
    and, for [N = 1], [T operator[](int) const { return val; }]. *)
Fixpoint index (k : nat) : Vec T k -> Z -> T :=
  match k with
  | O => fun v _ => val v
  | S k' => fun v i =>
      if i <? lanes (S k') / 2
      then index k' (lo v) i
      else index k' (hi v) (i - lanes (S k') / 2)
  end.

(** The non-const [T& operator[](int i) { return i < N/2 ? lo[i] : hi[i-N/2]; }]
    (for [N = 1]: [return val;]) followed by an assignment through the
    reference it returns: [v[i] = x]. *)
Fixpoint set_lane (k : nat) : Vec T k -> Z -> T -> Vec T k :=
  match k with
  | O => fun _ _ x => x
  | S k' => fun v i x =>
      if i <? lanes (S k') / 2
      then join (set_lane k' (lo v) i x) (hi v)
      else join (lo v) (set_lane k' (hi v) (i - lanes (S k') / 2) x)
  end.

(** [void store(void* ptr) const { memcpy(ptr, this, sizeof(Vec)); }]: the
    lanes in memory order, [lo] before [hi]. *)
Fixpoint store (k : nat) : Vec T k -> list T :=
  match k with
  | O => fun v => [val v]
  | S k' => fun v => store k' (lo v) ++ store k' (hi v)
  end.

(** [static Vec Load(const void* ptr) { Vec v; memcpy(&v, ptr, sizeof(Vec)); return v; }]
    The buffer must hold at least [N] lanes; reading past its end is undefined
    in C++, and yields [zero] lanes here. *)
Fixpoint Load (k : nat) (ptr : list T) : Vec T k :=
  match k with
  | O => nth 0 ptr zero
  | S k' => join (Load k' ptr) (Load k' (skipn (Z.to_nat (lanes k')) ptr))
  end.

(** The constructor from [std::initializer_list<T>]:
<<
    Vec(std::initializer_list<T> xs) {
        T vals[N] = {0};
        memcpy(vals, xs.begin(), std::min(xs.size(), (size_t)N)*sizeof(T));
        lo = Vec<N/2,T>::Load(vals +   0);
        hi = Vec<N/2,T>::Load(vals + N/2);
    }
    Vec<1,T>(std::initializer_list<T> xs) : val(xs.size() ? *xs.begin() : 0) {}
>> *)
Definition Vec_init (k : nat) (xs : list T) : Vec T k :=
  match k with
  | O => match xs with
         | [] => zero
         | x :: _ => x
         end
  | S k' =>
      let N := Z.to_nat (lanes (S k')) in
      let vals := memcpy (repeat zero N) xs (Nat.min (length xs) N) in
      join (Load k' (skipn 0 vals))
           (Load k' (skipn (Z.to_nat (lanes (S k') / 2)) vals))
  end.

(** [shuffle<Ix...>(x)], portable branch: [return { x[Ix]... };], a
    [Vec<sizeof...(Ix),T>] built by the initializer-list constructor.  The
    result type is legal only when the number of indices is [2^k']. *)
Definition shuffle (k' : nat) (Ix : list Z) {k : nat} (x : Vec T k) : Vec T k' :=
  Vec_init k' (map (index k x) Ix).

(** [unchecked_bit_pun]/[bit_pun] between two layouts of the same lanes: the
    source is copied out to memory and read back at the destination type. *)
Definition bit_pun (k : nat) (s : list T) : Vec T k := Load k s.

End Generic.

End Container.

Import Container.

(** ** Scalar element types

    A lane of an arithmetic type is represented by its object representation:
    the [w]-bit pattern, a [Z] in [[0, 2^w)].  [bit_pun] between lanes of the
    same size then keeps the lane as it is, as [memcpy] does. *)

Module Scalar.

(** The fixed-width integer types of <cstdint>. *)
Inductive ity : Type := U8 | I8 | U16 | I16 | U32 | I32 | U64 | I64.

(** The element types the header names: integers, [float] and [double]. *)
Inductive ty : Type := Int (t : ity) | Float | Double.

Definition bits (t : ity) : Z :=
  match t with
  | U8 | I8 => 8
  | U16 | I16 => 16
  | U32 | I32 => 32
  | U64 | I64 => 64
  end.

Definition is_signed (t : ity) : bool :=
  match t with
  | I8 | I16 | I32 | I64 => true
  | U8 | U16 | U32 | U64 => false
  end.

(** [8 * sizeof(T)] *)
Definition size_bits (t : ty) : Z :=
  match t with
  | Int t => bits t
  | Float => 32
  | Double => 64
  end.

(** [template <typename T> struct Mask { using type = T; };] with the two
    specialisations [Mask<float>::type = int32_t], [Mask<double>::type = int64_t]. *)
Definition Mask (t : ty) : ity :=
  match t with
  | Int t => t
  | Float => I32
  | Double => I64
  end.

(** Conversion of a mathematical integer to the type [t] (two's complement
    wrap-around), giving the bit pattern. *)
Definition repr (t : ity) (v : Z) : Z := v mod 2 ^ bits t.

(** The number a bit pattern of type [t] stands for. *)
Definition value (t : ity) (x : Z) : Z :=
  if is_signed t && (2 ^ (bits t - 1) <=? x) then x - 2 ^ bits t else x.

(** The numbers the type [t] can represent. *)
Definition in_range (t : ity) (v : Z) : Prop :=
  if is_signed t then - 2 ^ (bits t - 1) <= v < 2 ^ (bits t - 1)
  else 0 <= v < 2 ^ bits t.

(** A well-formed lane of a [w]-bit type. *)
Definition wf_lane (w : Z) (x : Z) : Prop := 0 <= x < 2 ^ w.

(** All [w] bits set, and the pattern of [(T)~0]. *)
Definition all_ones (w : Z) : Z := 2 ^ w - 1.

(** Integral promotion, and the usual arithmetic conversions for two operands
    of the same type [t]: types narrower than [int] are computed in [int]. *)
Definition promoted (t : ity) : ity :=
  if bits t <? 32 then I32 else t.

(** The result of an expression of the promoted type, given as a mathematical
    integer, converted back to [t] by the converting constructor [Vec<1,T>(U)].
    Signed overflow in the promoted type, undefined in C++, is given its
    two's complement result. *)
Definition convert_back (t : ity) (v : Z) : Z :=
  repr t (value (promoted t) (repr (promoted t) v)).

(** A [bool] converted to [T]. *)
Definition of_bool (t : ity) (b : bool) : Z := repr t (if b then 1 else 0).

(** The operations a lane type provides to the operators of the header.  The
    comparison results are C++ [bool]s. *)
Record ScalarOps (T : Type) : Type := {
  s_type : ty;
  s_add : T -> T -> T;
  s_sub : T -> T -> T;
  s_mul : T -> T -> T;
  s_div : T -> T -> T;
  s_xor : T -> T -> T;
  s_and : T -> T -> T;
  s_or : T -> T -> T;
  s_lnot : T -> T;
  s_neg : T -> T;
  s_bnot : T -> T;
  s_shl : T -> Z -> T;
  s_shr : T -> Z -> T;
  s_eq : T -> T -> bool;
  s_ne : T -> T -> bool;
  s_le : T -> T -> bool;
  s_ge : T -> T -> bool;
  s_lt : T -> T -> bool;
  s_gt : T -> T -> bool;
  s_of_int : Z -> T
}.

Arguments s_type {T} _.
Arguments s_add {T} _ _ _.
Arguments s_sub {T} _ _ _.
Arguments s_mul {T} _ _ _.
Arguments s_div {T} _ _ _.
Arguments s_xor {T} _ _ _.
Arguments s_and {T} _ _ _.
Arguments s_or {T} _ _ _.
Arguments s_lnot {T} _ _.
Arguments s_neg {T} _ _.
Arguments s_bnot {T} _ _.
Arguments s_shl {T} _ _ _.
Arguments s_shr {T} _ _ _.
Arguments s_eq {T} _ _ _.
Arguments s_ne {T} _ _ _.
Arguments s_le {T} _ _ _.
Arguments s_ge {T} _ _ _.
Arguments s_lt {T} _ _ _.
Arguments s_gt {T} _ _ _.
Arguments s_of_int {T} _ _.

(** The C++ scalar operators on an integer type [t], as the one-lane
    operators use them: [x.val + y.val] is computed after integral promotion
    and converted back to [T] when the result [Vec<1,T>] is built.  Division by
    zero is undefined in C++; [Z.quot] gives 0 there.  A shift count is
    meaningful from 0 up to the width of the promoted type; [>>] on a negative
    value is the arithmetic shift. *)
Definition int_ops (t : ity) : ScalarOps Z := {|
  s_type := Int t;
  s_add x y := convert_back t (value t x + value t y);
  s_sub x y := convert_back t (value t x - value t y);
  s_mul x y := convert_back t (value t x * value t y);
  s_div x y := convert_back t (Z.quot (value t x) (value t y));
  s_xor x y := convert_back t (Z.lxor (value t x) (value t y));
  s_and x y := convert_back t (Z.land (value t x) (value t y));
  s_or x y := convert_back t (Z.lor (value t x) (value t y));
  s_lnot x := of_bool t (value t x =? 0);
  s_neg x := convert_back t (- value t x);
  s_bnot x := convert_back t (Z.lnot (value t x));
  s_shl x n := convert_back t (Z.shiftl (value t x) n);
  s_shr x n := convert_back t (Z.shiftr (value t x) n);
  s_eq x y := value t x =? value t y;
  s_ne x y := negb (value t x =? value t y);
  s_le x y := value t x <=? value t y;
  s_ge x y := value t y <=? value t x;
  s_lt x y := value t x <? value t y;
  s_gt x y := value t y <? value t x;
  s_of_int v := repr t v
|}.

End Scalar.

Import Scalar.

(** ** The default operators, portable strategy

    The branch taken when [SKNX_NO_SIMD] is defined or the compiler has no
    vector extensions: "N == 1 scalar implementations", and "all default
    N != 1 implementations just recurse on lo and hi halves". *)

Module Portable.

(** [op(x) = join(op(x.lo), op(x.hi))], down to the scalar [f] at [N == 1]. *)
Fixpoint halves1 {A B : Type} (f : A -> B) (k : nat) : Vec A k -> Vec B k :=
  match k with
  | O => fun x => f (val x)
  | S k' => fun x => join (halves1 f k' (lo x)) (halves1 f k' (hi x))
  end.

(** [op(x,y) = join(op(x.lo,y.lo), op(x.hi,y.hi))], down to the scalar [f]. *)
Fixpoint halves2 {A B C : Type} (f : A -> B -> C) (k : nat)
  : Vec A k -> Vec B k -> Vec C k :=
  match k with
  | O => fun x y => f (val x) (val y)
  | S k' => fun x y =>
      join (halves2 f k' (lo x) (lo y)) (halves2 f k' (hi x) (hi y))
  end.

(** [b ? ~0 : 0], an [int], converted to the mask type [M<T>]. *)
Definition mask_of_bool (m : ity) (b : bool) : Z :=
  repr m (if b then Z.lnot 0 else 0).

Section Ops.

Context {T : Type}.
Variable S : ScalarOps T.

(** [x.val + y.val], ... *)
Definition op_add := halves2 (s_add S).
Definition op_sub := halves2 (s_sub S).
Definition op_mul := halves2 (s_mul S).
Definition op_div := halves2 (s_div S).
Definition op_xor := halves2 (s_xor S).
Definition op_and := halves2 (s_and S).
Definition op_or := halves2 (s_or S).

(** [!x.val], [-x.val], [~x.val] *)
Definition op_lnot := halves1 (s_lnot S).
Definition op_neg := halves1 (s_neg S).
Definition op_bnot := halves1 (s_bnot S).

(** [x.val << bits], [x.val >> bits] *)
Definition op_shl (k : nat) (x : Vec T k) (n : Z) : Vec T k :=
  halves1 (fun v => s_shl S v n) k x.
Definition op_shr (k : nat) (x : Vec T k) (n : Z) : Vec T k :=
  halves1 (fun v => s_shr S v n) k x.

(** [x.val == y.val ? ~0 : 0], ..., of type [Vec<N,M<T>>] *)
Definition op_eq := halves2 (fun x y => mask_of_bool (Mask (s_type S)) (s_eq S x y)).
Definition op_ne := halves2 (fun x y => mask_of_bool (Mask (s_type S)) (s_ne S x y)).
Definition op_le := halves2 (fun x y => mask_of_bool (Mask (s_type S)) (s_le S x y)).
Definition op_ge := halves2 (fun x y => mask_of_bool (Mask (s_type S)) (s_ge S x y)).
Definition op_lt := halves2 (fun x y => mask_of_bool (Mask (s_type S)) (s_lt S x y)).
Definition op_gt := halves2 (fun x y => mask_of_bool (Mask (s_type S)) (s_gt S x y)).

(** The vector/scalar forms "just splat the scalar to a vector":
    [x op Vec<N,T>(y)], for an integer scalar [y]. *)
Definition splat_int (k : nat) (y : Z) : Vec T k := splat k (s_of_int S y).

(** [std::min(a, b)] is [(b < a) ? b : a] and [std::max(a, b)] is
    [(a < b) ? b : a]. *)
Definition std_min (a b : T) : T := if s_lt S b a then b else a.
Definition std_max (a b : T) : T := if s_lt S a b then b else a.

(** The element-wise [min(x, y)] and [max(x, y)]:
    [std::min(x.val, y.val)] at [N == 1], else the recursion on halves. *)
Definition op_min := halves2 std_min.
Definition op_max := halves2 std_max.

(** The horizontal [min(x)] and [max(x)]: [x.val] at [N == 1], else
    [std::min(min(x.lo), min(x.hi))]. *)
Fixpoint hmin (k : nat) : Vec T k -> T :=
  match k with
  | O => fun x => val x
  | Datatypes.S k' => fun x => std_min (hmin k' (lo x)) (hmin k' (hi x))
  end.

Fixpoint hmax (k : nat) : Vec T k -> T :=
  match k with
  | O => fun x => val x
  | Datatypes.S k' => fun x => std_max (hmax k' (lo x)) (hmax k' (hi x))
  end.

(** [mad(f, m, a)]: [f*m+a] on one-lane vectors at [N == 1], else
    [join(mad(f.lo, m.lo, a.lo), mad(f.hi, m.hi, a.hi))]. *)
Fixpoint mad (k : nat) : Vec T k -> Vec T k -> Vec T k -> Vec T k :=
  match k with
  | O => fun f m a => op_add O (op_mul O f m) a
  | Datatypes.S k' => fun f m a =>
      join (mad k' (lo f) (lo m) (lo a)) (mad k' (hi f) (hi m) (hi a))
  end.

End Ops.

(** [cast<D>(src)]: [(D)src.val] at [N == 1], else
    [join(cast<D>(src.lo), cast<D>(src.hi))]. *)
Definition int_conv (s d : ity) (x : Z) : Z := repr d (value s x).
Definition cast (s d : ity) := halves1 (int_conv s d).

End Portable.

(** ** The default operators, vector-extension strategy

    The branch taken when [SKNX_NO_SIMD] is not defined and the compiler is
    Clang or GCC: both operands are reinterpreted as [VExt<N,T>], the
    compiler's vector operator is applied, and the result is reinterpreted
    back.  The vector operators are compiler built-ins.  Their lane semantics
    is taken from the Clang and GCC manuals: they act element-wise on lanes of
    the element type itself (no integral promotion), and the relational
    operators and [!] give a lane of all ones (-1) where the test holds and 0
    elsewhere ([!v] being [v == 0]). *)

Module Native.

(** [VExt<N,T>]: [N] contiguous lanes, as large as [Vec<N,T>]. *)
Definition VExt (T : Type) : Type := list T.

Fixpoint map2 {A B C : Type} (f : A -> B -> C) (u : list A) (v : list B) : list C :=
  match u, v with
  | a :: u', b :: v' => f a b :: map2 f u' v'
  | _, _ => []
  end.

(** The element-wise meaning of the built-in operators on [VExt<N,T>]. *)
Record VExtOps (T : Type) : Type := {
  v_add : T -> T -> T;
  v_sub : T -> T -> T;
  v_mul : T -> T -> T;
  v_div : T -> T -> T;
  v_xor : T -> T -> T;
  v_and : T -> T -> T;
  v_or : T -> T -> T;
  v_lnot : T -> T;
  v_neg : T -> T;
  v_bnot : T -> T;
  v_shl : T -> Z -> T;
  v_shr : T -> Z -> T;
  v_eq : T -> T -> Z;
  v_ne : T -> T -> Z;
  v_le : T -> T -> Z;
  v_ge : T -> T -> Z;
  v_lt : T -> T -> Z;
  v_gt : T -> T -> Z
}.

Arguments v_add {T} _ _ _.
Arguments v_sub {T} _ _ _.
Arguments v_mul {T} _ _ _.
Arguments v_div {T} _ _ _.
Arguments v_xor {T} _ _ _.
Arguments v_and {T} _ _ _.
Arguments v_or {T} _ _ _.
Arguments v_lnot {T} _ _.
Arguments v_neg {T} _ _.
Arguments v_bnot {T} _ _.
Arguments v_shl {T} _ _ _.
Arguments v_shr {T} _ _ _.
Arguments v_eq {T} _ _ _.
Arguments v_ne {T} _ _ _.
Arguments v_le {T} _ _ _.
Arguments v_ge {T} _ _ _.
Arguments v_lt {T} _ _ _.
Arguments v_gt {T} _ _ _.

(** A lane of a vector comparison: all ones or zero. *)
Definition vmask (t : ity) (b : bool) : Z := if b then all_ones (bits t) else 0.

(** Order of two lanes of type [t]: signed or unsigned by the type. *)
Definition lane_ltb (t : ity) (x y : Z) : bool :=
  if is_signed t then value t x <? value t y else x <? y.

(** The built-in operators on vectors of the integer type [t], on bit
    patterns of [bits t] bits. *)
Definition int_vext (t : ity) : VExtOps Z := {|
  v_add x y := (x + y) mod 2 ^ bits t;
  v_sub x y := (x - y) mod 2 ^ bits t;
  v_mul x y := (x * y) mod 2 ^ bits t;
  v_div x y := if is_signed t then repr t (Z.quot (value t x) (value t y)) else x / y;
  v_xor x y := Z.lxor x y;
  v_and x y := Z.land x y;
  v_or x y := Z.lor x y;
  v_lnot x := vmask t (x =? 0);
  v_neg x := (- x) mod 2 ^ bits t;
  v_bnot x := Z.lxor x (all_ones (bits t));
  v_shl x n := Z.shiftl x n mod 2 ^ bits t;
  v_shr x n := if is_signed t then repr t (Z.shiftr (value t x) n) else Z.shiftr x n;
  v_eq x y := vmask t (x =? y);
  v_ne x y := vmask t (negb (x =? y));
  v_le x y := vmask t (negb (lane_ltb t y x));
  v_ge x y := vmask t (negb (lane_ltb t x y));
  v_lt x y := vmask t (lane_ltb t x y);
  v_gt x y := vmask t (lane_ltb t y x)
|}.

Section Ops.

Context {T : Type}.
Variable zero : T.
Variable V : VExtOps T.

(** [to_vext(v) = bit_pun<VExt<N,T>>(v)] and [to_vec(v) = bit_pun<Vec<N,T>>(v)] *)
Definition to_vext (k : nat) (v : Vec T k) : VExt T := store k v.
Definition to_vec (k : nat) (v : VExt T) : Vec T k := bit_pun zero k v.

(** [to_vec<N,T>(to_vext(x) + to_vext(y))], ... *)
Definition op_add k (x y : Vec T k) := to_vec k (map2 (v_add V) (to_vext k x) (to_vext k y)).
Definition op_sub k (x y : Vec T k) := to_vec k (map2 (v_sub V) (to_vext k x) (to_vext k y)).
Definition op_mul k (x y : Vec T k) := to_vec k (map2 (v_mul V) (to_vext k x) (to_vext k y)).
Definition op_div k (x y : Vec T k) := to_vec k (map2 (v_div V) (to_vext k x) (to_vext k y)).
Definition op_xor k (x y : Vec T k) := to_vec k (map2 (v_xor V) (to_vext k x) (to_vext k y)).
Definition op_and k (x y : Vec T k) := to_vec k (map2 (v_and V) (to_vext k x) (to_vext k y)).
Definition op_or k (x y : Vec T k) := to_vec k (map2 (v_or V) (to_vext k x) (to_vext k y)).

(** [to_vec<N,T>(!to_vext(x))], ... *)
Definition op_lnot k (x : Vec T k) := to_vec k (map (v_lnot V) (to_vext k x)).
Definition op_neg k (x : Vec T k) := to_vec k (map (v_neg V) (to_vext k x)).
Definition op_bnot k (x : Vec T k) := to_vec k (map (v_bnot V) (to_vext k x)).

(** [to_vec<N,T>(to_vext(x) << bits)], ... *)
Definition op_shl k (x : Vec T k) (n : Z) := to_vec k (map (fun v => v_shl V v n) (to_vext k x)).
Definition op_shr k (x : Vec T k) (n : Z) := to_vec k (map (fun v => v_shr V v n) (to_vext k x)).

(** [bit_pun<Vec<N,M<T>>>(to_vext(x) == to_vext(y))], ... *)
Definition op_eq k (x y : Vec T k) : Vec Z k := bit_pun 0 k (map2 (v_eq V) (to_vext k x) (to_vext k y)).
Definition op_ne k (x y : Vec T k) : Vec Z k := bit_pun 0 k (map2 (v_ne V) (to_vext k x) (to_vext k y)).
Definition op_le k (x y : Vec T k) : Vec Z k := bit_pun 0 k (map2 (v_le V) (to_vext k x) (to_vext k y)).
Definition op_ge k (x y : Vec T k) : Vec Z k := bit_pun 0 k (map2 (v_ge V) (to_vext k x) (to_vext k y)).
Definition op_lt k (x y : Vec T k) : Vec Z k := bit_pun 0 k (map2 (v_lt V) (to_vext k x) (to_vext k y)).
Definition op_gt k (x y : Vec T k) : Vec Z k := bit_pun 0 k (map2 (v_gt V) (to_vext k x) (to_vext k y)).

End Ops.

End Native.

(** ** Operations built on the operators

    "Some operations we want are not expressible with Clang/GCC vector
    extensions, so we implement them using the recursive approach."  The
    operators they call are the portable ones. *)

Module Skvx.

Import Portable.

(** [bit_pun<Vec<N,D>>(x)] for a [Vec<N,S>] with [sizeof(D) == sizeof(S)]:
    the lanes keep their bit patterns. *)
Definition pun (k : nat) (x : Vec Z k) : Vec Z k := bit_pun 0 k (store k x).

(** The expression shared by both definitions of [if_then_else]:
<<
    bit_pun<Vec<N,T>>(( cond & bit_pun<Vec<N, M<T>>>(t)) |
                      (~cond & bit_pun<Vec<N, M<T>>>(e)) )
>> *)
Definition select_bits (m : ity) (k : nat) (cond t e : Vec Z k) : Vec Z k :=
  pun k (op_or (int_ops m) k
           (op_and (int_ops m) k cond (pun k t))
           (op_and (int_ops m) k (op_bnot (int_ops m) k cond) (pun k e))).

(** [if_then_else(cond, t, e)] for lanes of type [T], on a build that defines
    none of [__AVX__], [__SSE4_1__] and [__ARM_NEON]: the scalar definition at
    [N == 1]; for larger [N], "recurse for large vectors" when [N > 4], else
    the bitwise default.  [if_then_else_on] below is the same function on any
    build. *)
Fixpoint if_then_else (T : ty) (k : nat) : Vec Z k -> Vec Z k -> Vec Z k -> Vec Z k :=
  match k with
  | O => fun cond t e => select_bits (Mask T) O cond t e
  | S k' => fun cond t e =>
      if 4 <? lanes (S k')
      then join (if_then_else T k' (lo cond) (lo t) (lo e))
                (if_then_else T k' (hi cond) (hi t) (hi e))
      else select_bits (Mask T) (S k') cond t e
  end.

(** [any(x)]: [x.val != 0] at [N == 1], else [any(x.lo) || any(x.hi)];
    [all(x)] likewise with [&&]. *)
Fixpoint any (k : nat) : Vec Z k -> bool :=
  match k with
  | O => fun x => negb (val x =? 0)
  | S k' => fun x => any k' (lo x) || any k' (hi x)
  end.

Fixpoint all (k : nat) : Vec Z k -> bool :=
  match k with
  | O => fun x => negb (val x =? 0)
  | S k' => fun x => all k' (lo x) && all k' (hi x)
  end.

(** The bit pattern of [0.0f], the value of [Vec<N,float>(0)]'s lanes. *)
Definition float_zero : Z := 0.

(** The default half-float conversions, which "assume inputs are finite and
    treat/flush denorm half floats as/to zero":
<<
    Vec<N,uint32_t> sem = bit_pun<Vec<N,uint32_t>>(x),
                    s   = sem & 0x8000'0000,
                     em = sem ^ s,
              is_denorm =  em < 0x3880'0000;
    return cast<uint16_t>(if_then_else(is_denorm, Vec<N,uint32_t>(0)
                                                , (s>>16) + (em>>13) - ((127-15)<<10)));
>> *)
Definition to_half_finite_ftz (k : nat) (x : Vec Z k) : Vec Z k :=
  let u32 := int_ops U32 in
  let sem := pun k x in
  let s := op_and u32 k sem (splat_int u32 k 0x80000000) in
  let em := op_xor u32 k sem s in
  let is_denorm := op_lt u32 k em (splat_int u32 k 0x38800000) in
  cast U32 U16 k
    (if_then_else (Int U32) k is_denorm (splat_int u32 k 0)
       (op_sub u32 k
          (op_add u32 k (op_shr u32 k s 16) (op_shr u32 k em 13))
          (splat_int u32 k (Z.shiftl (127 - 15) 10)))).

(**
<<
    Vec<N,uint32_t> wide = cast<uint32_t>(x),
                      s  = wide & 0x8000,
                      em = wide ^ s;
    auto is_denorm = bit_pun<Vec<N,int32_t>>(em < 0x0400);
    return if_then_else(is_denorm, Vec<N,float>(0)
                                 , bit_pun<Vec<N,float>>( (s<<16) + (em<<13) + ((127-15)<<23) ));
>> *)
Definition from_half_finite_ftz (k : nat) (x : Vec Z k) : Vec Z k :=
  let u32 := int_ops U32 in
  let wide := cast U16 U32 k x in
  let s := op_and u32 k wide (splat_int u32 k 0x8000) in
  let em := op_xor u32 k wide s in
  let is_denorm := pun k (op_lt u32 k em (splat_int u32 k 0x0400)) in
  if_then_else Float k is_denorm (splat k float_zero)
    (pun k (op_add u32 k
              (op_add u32 k (op_shl u32 k s 16) (op_shl u32 k em 13))
              (splat_int u32 k (Z.shiftl (127 - 15) 23)))).

(** [to_half]/[from_half] on a build that defines neither [__F16C__] nor
    [__aarch64__]: the [N == 1] overloads call the default directly; the
    template recurses on halves while [N > 4] and then calls the default.
    [to_half_on] and [from_half_on] below are the same functions on any
    build. *)
Fixpoint to_half (k : nat) : Vec Z k -> Vec Z k :=
  match k with
  | O => fun x => to_half_finite_ftz O x
  | S k' => fun x =>
      if 4 <? lanes (S k')
      then join (to_half k' (lo x)) (to_half k' (hi x))
      else to_half_finite_ftz (S k') x
  end.

Fixpoint from_half (k : nat) : Vec Z k -> Vec Z k :=
  match k with
  | O => fun x => from_half_finite_ftz O x
  | S k' => fun x =>
      if 4 <? lanes (S k')
      then join (from_half k' (lo x)) (from_half k' (hi x))
      else from_half_finite_ftz (S k') x
  end.

(** [div255(x) = cast<uint8_t>( (x+127)/255 )] on [Vec<N,uint16_t>] *)
Definition div255 (k : nat) (x : Vec Z k) : Vec Z k :=
  let u16 := int_ops U16 in
  cast U16 U8 k
    (op_div u16 k (op_add u16 k x (splat_int u16 k 127)) (splat_int u16 k 255)).

(**
<<
    auto X = cast<uint16_t>(x),
         Y = cast<uint16_t>(y);
    return cast<uint8_t>( (X*Y+X)/256 );
>> *)
Definition approx_scale (k : nat) (x y : Vec Z k) : Vec Z k :=
  let u16 := int_ops U16 in
  let X := cast U8 U16 k x in
  let Y := cast U8 U16 k y in
  cast U16 U8 k
    (op_div u16 k (op_add u16 k (op_mul u16 k X Y) X) (splat_int u16 k 256)).

(** [mull(x,y) = cast<uint16_t>(x) * cast<uint16_t>(y)] without NEON *)
Definition mull (k : nat) (x y : Vec Z k) : Vec Z k :=
  op_mul (int_ops U16) k (cast U8 U16 k x) (cast U8 U16 k y).

(** The magnitude of a finite [float] given by its bit pattern, scaled by
    [2^149] so that it is an integer: a 1-8-23 sign-exponent-mantissa float
    with exponent field [e] and mantissa [m] is [m * 2^-149] when [e = 0] and
    [(2^23 + m) * 2^(e-150)] otherwise. *)
Definition float_exponent (f : Z) : Z := Z.land (Z.shiftr f 23) 0xFF.
Definition float_mantissa (f : Z) : Z := Z.land f 0x7FFFFF.
Definition float_magnitude_2p149 (f : Z) : Z :=
  if float_exponent f =? 0 then float_mantissa f
  else (2 ^ 23 + float_mantissa f) * 2 ^ (float_exponent f - 1).

(** The fields of a 1-5-10 half-float bit pattern. *)
Definition half_exponent (h : Z) : Z := Z.land (Z.shiftr h 10) 0x1F.
Definition half_mantissa (h : Z) : Z := Z.land h 0x3FF.

(** *** The select and the half-float conversions on any build

    [if_then_else], [to_half] and [from_half] start with blocks under
    [#if defined(__AVX__)], [__SSE4_1__], [__ARM_NEON], [__F16C__] and
    [__aarch64__] that hand vectors of the machine's width to one
    instruction.  The definitions above are the build that defines none of
    these macros; the definitions below are the same functions on any build.
    The instructions' lane semantics is taken from the vendors' manuals, with
    the floating-point control registers at their defaults: IEEE 754
    conversions, rounding to nearest with ties to even, subnormals kept,
    signalling NaNs quieted. *)

(** Which of the five macros the build defines. *)
Record Target : Type := {
  AVX : bool;
  SSE4_1 : bool;
  ARM_NEON : bool;
  F16C : bool;
  aarch64 : bool
}.

Definition default_target : Target :=
  {| AVX := false; SSE4_1 := false; ARM_NEON := false; F16C := false; aarch64 := false |}.

(** Two more builds: x86-64 with AVX and F16C, and 64-bit ARM. *)
Definition x86_avx_f16c : Target :=
  {| AVX := true; SSE4_1 := true; ARM_NEON := false; F16C := true; aarch64 := false |}.
Definition arm64 : Target :=
  {| AVX := false; SSE4_1 := false; ARM_NEON := true; F16C := false; aarch64 := true |}.

(** [sizeof(T)], in bytes. *)
Definition sizeof (T : ty) : Z := size_bits T / 8.

Fixpoint map3 {A : Type} (f : A -> A -> A -> A) (u v w : list A) : list A :=
  match u, v, w with
  | a :: u', b :: v', c :: w' => f a b c :: map3 f u' v' w'
  | _, _, _ => []
  end.

(** [_mm256_blendv_ps(a, b, mask)] and [_mm_blendv_ps(a, b, mask)]: each
    32-bit lane is the lane of [b] where the top bit of the lane of [mask] is
    set, and the lane of [a] where it is clear. *)
Definition blendv_lane (a b mask : Z) : Z := if Z.testbit mask 31 then b else a.
Definition _mm256_blendv_ps (a b mask : list Z) : list Z := map3 blendv_lane a b mask.
Definition _mm_blendv_ps (a b mask : list Z) : list Z := map3 blendv_lane a b mask.

(** [vbslq_f32(mask, a, b)]: each bit is the bit of [a] where the bit of
    [mask] is set, and the bit of [b] where it is clear. *)
Definition vbsl_lane (mask a b : Z) : Z := Z.lor (Z.land mask a) (Z.land (Z.lnot mask) b).
Definition vbslq_f32 (mask a b : list Z) : list Z := map3 vbsl_lane mask a b.

(** [if_then_else(cond, t, e)] with its specialisations: the scalar
    definition at [N == 1], and for larger [N]
<<
    #if defined(__AVX__)
        if (N == 8 && sizeof(T) == 4) { return unchecked_bit_pun<Vec<N,T>>(_mm256_blendv_ps(
            unchecked_bit_pun<__m256>(e), unchecked_bit_pun<__m256>(t),
            unchecked_bit_pun<__m256>(cond))); }
    #endif
    #if defined(__SSE4_1__)
        if (N == 4 && sizeof(T) == 4) { return unchecked_bit_pun<Vec<N,T>>(_mm_blendv_ps(
            unchecked_bit_pun<__m128>(e), unchecked_bit_pun<__m128>(t),
            unchecked_bit_pun<__m128>(cond))); }
    #endif
    #if defined(__ARM_NEON)
        if (N == 4 && sizeof(T) == 4) { return unchecked_bit_pun<Vec<N,T>>(vbslq_f32(
            unchecked_bit_pun< uint32x4_t>(cond), unchecked_bit_pun<float32x4_t>(t),
            unchecked_bit_pun<float32x4_t>(e))); }
    #endif
        if (N > 4) { return join(if_then_else(cond.lo, t.lo, e.lo),
                                 if_then_else(cond.hi, t.hi, e.hi)); }
        return bit_pun<Vec<N,T>>(( cond & bit_pun<Vec<N, M<T>>>(t)) |
                                 (~cond & bit_pun<Vec<N, M<T>>>(e)) );
>> *)
Fixpoint if_then_else_on (tgt : Target) (T : ty) (k : nat)
  : Vec Z k -> Vec Z k -> Vec Z k -> Vec Z k :=
  match k with
  | O => fun cond t e => select_bits (Mask T) O cond t e
  | S k' => fun cond t e =>
      if AVX tgt && ((lanes (S k') =? 8) && (sizeof T =? 4))
      then bit_pun 0 (S k')
             (_mm256_blendv_ps (store (S k') e) (store (S k') t) (store (S k') cond))
      else if SSE4_1 tgt && ((lanes (S k') =? 4) && (sizeof T =? 4))
      then bit_pun 0 (S k')
             (_mm_blendv_ps (store (S k') e) (store (S k') t) (store (S k') cond))
      else if ARM_NEON tgt && ((lanes (S k') =? 4) && (sizeof T =? 4))
      then bit_pun 0 (S k')
             (vbslq_f32 (store (S k') cond) (store (S k') t) (store (S k') e))
      else if 4 <? lanes (S k')
      then join (if_then_else_on tgt T k' (lo cond) (lo t) (lo e))
                (if_then_else_on tgt T k' (hi cond) (hi t) (hi e))
      else select_bits (Mask T) (S k') cond t e
  end.

(** The widths and lane sizes at which the dispatch of [if_then_else] ends in
    a blend instruction: 32-bit lanes, eight or more with [__AVX__], four or
    more with [__SSE4_1__]. *)
Definition blend_lanes (tgt : Target) (T : ty) (k : nat) : bool :=
  (sizeof T =? 4) && ((AVX tgt && (3 <=? k)%nat) || (SSE4_1 tgt && (2 <=? k)%nat)).

(** [to_half_finite_ftz] and [from_half_finite_ftz], whose [if_then_else] is
    the one of the build. *)
Definition to_half_finite_ftz_on (tgt : Target) (k : nat) (x : Vec Z k) : Vec Z k :=
  let u32 := int_ops U32 in
  let sem := pun k x in
  let s := op_and u32 k sem (splat_int u32 k 0x80000000) in
  let em := op_xor u32 k sem s in
  let is_denorm := op_lt u32 k em (splat_int u32 k 0x38800000) in
  cast U32 U16 k
    (if_then_else_on tgt (Int U32) k is_denorm (splat_int u32 k 0)
       (op_sub u32 k
          (op_add u32 k (op_shr u32 k s 16) (op_shr u32 k em 13))
          (splat_int u32 k (Z.shiftl (127 - 15) 10)))).

Definition from_half_finite_ftz_on (tgt : Target) (k : nat) (x : Vec Z k) : Vec Z k :=
  let u32 := int_ops U32 in
  let wide := cast U16 U32 k x in
  let s := op_and u32 k wide (splat_int u32 k 0x8000) in
  let em := op_xor u32 k wide s in
  let is_denorm := pun k (op_lt u32 k em (splat_int u32 k 0x0400)) in
  if_then_else_on tgt Float k is_denorm (splat k float_zero)
    (pun k (op_add u32 k
              (op_add u32 k (op_shl u32 k s 16) (op_shl u32 k em 13))
              (splat_int u32 k (Z.shiftl (127 - 15) 23)))).

(** [x / 2^n] rounded to the nearest integer, ties to even. *)
Definition rne_shift (x n : Z) : Z :=
  let q := x / 2 ^ n in
  let r := x mod 2 ^ n in
  if (2 ^ (n - 1) <? r) || ((r =? 2 ^ (n - 1)) && Z.odd q) then q + 1 else q.

(** One lane of the exact conversion of a half to a float: infinities and
    NaNs, subnormals (normalised: a half [m * 2^-24] is a normal float), and
    normals (the exponent rebiased by [127 - 15]). *)
Definition half_to_float_exact (h : Z) : Z :=
  let e := half_exponent h in
  let m := half_mantissa h in
  Z.shiftr h 15 * 2 ^ 31
  + (if e =? 31 then 0x7F800000 + (if m =? 0 then 0 else Z.lor 0x400000 (m * 2 ^ 13))
     else if e =? 0 then
       (if m =? 0 then 0
        else (Z.log2 m + 103) * 2 ^ 23 + (m - 2 ^ Z.log2 m) * 2 ^ (23 - Z.log2 m))
     else (e + 112) * 2 ^ 23 + m * 2 ^ 13).

(** One lane of the conversion of a float to the nearest half: infinities and
    NaNs, floats of at least [2^-14] (rounded, to infinity from [65520]), and
    smaller floats (rounded to a multiple of [2^-24]). *)
Definition float_to_half_rne (f : Z) : Z :=
  let e := float_exponent f in
  let m := float_mantissa f in
  Z.shiftr f 31 * 2 ^ 15
  + (if e =? 255 then (if m =? 0 then 0x7C00 else Z.lor 0x7E00 (Z.shiftr m 13))
     else if 113 <=? e then Z.min 0x7C00 (rne_shift ((e - 112) * 2 ^ 23 + m) 13)
     else rne_shift (if e =? 0 then m else 2 ^ 23 + m) (126 - Z.max e 1)).

(** The conversion intrinsics, on the lanes of their vector argument
    ([_MM_FROUND_CUR_DIRECTION] is the rounding mode of the control
    register). *)
Definition _mm256_cvtps_ph (v : list Z) : list Z := map float_to_half_rne v.
Definition _mm256_cvtph_ps (v : list Z) : list Z := map half_to_float_exact v.
Definition vcvt_f16_f32 (v : list Z) : list Z := map float_to_half_rne v.
Definition vcvt_f32_f16 (v : list Z) : list Z := map half_to_float_exact v.

(** [to_half] with its specialisations: the [N == 1] overload, which calls
    [to_half_finite_ftz], and the template
<<
    #if defined(__F16C__)
        if (N == 8) { return unchecked_bit_pun<Vec<N,uint16_t>>(_mm256_cvtps_ph(
                                 unchecked_bit_pun<__m256>(x), _MM_FROUND_CUR_DIRECTION)); }
    #endif
    #if defined(__aarch64__)
        if (N == 4) { return unchecked_bit_pun<Vec<N,uint16_t>>(vcvt_f16_f32(
                                 unchecked_bit_pun<float32x4_t>(x))); }
    #endif
        if (N > 4) { return join(to_half(x.lo), to_half(x.hi)); }
        return to_half_finite_ftz(x);
>> *)
Fixpoint to_half_on (tgt : Target) (k : nat) : Vec Z k -> Vec Z k :=
  match k with
  | O => fun x => to_half_finite_ftz_on tgt O x
  | S k' => fun x =>
      if F16C tgt && (lanes (S k') =? 8)
      then bit_pun 0 (S k') (_mm256_cvtps_ph (store (S k') x))
      else if aarch64 tgt && (lanes (S k') =? 4)
      then bit_pun 0 (S k') (vcvt_f16_f32 (store (S k') x))
      else if 4 <? lanes (S k')
      then join (to_half_on tgt k' (lo x)) (to_half_on tgt k' (hi x))
      else to_half_finite_ftz_on tgt (S k') x
  end.

(** [from_half], likewise, with [_mm256_cvtph_ps] and [vcvt_f32_f16]. *)
Fixpoint from_half_on (tgt : Target) (k : nat) : Vec Z k -> Vec Z k :=
  match k with
  | O => fun x => from_half_finite_ftz_on tgt O x
  | S k' => fun x =>
      if F16C tgt && (lanes (S k') =? 8)
      then bit_pun 0 (S k') (_mm256_cvtph_ps (store (S k') x))
      else if aarch64 tgt && (lanes (S k') =? 4)
      then bit_pun 0 (S k') (vcvt_f32_f16 (store (S k') x))
      else if 4 <? lanes (S k')
      then join (from_half_on tgt k' (lo x)) (from_half_on tgt k' (hi x))
      else from_half_finite_ftz_on tgt (S k') x
  end.

(** The widths at which the dispatch of [to_half] and [from_half] ends in a
    conversion instruction: eight lanes or more with [__F16C__], four or more
    with [__aarch64__]. *)
Definition hardware_half (tgt : Target) (k : nat) : bool :=
  (F16C tgt && (3 <=? k)%nat) || (aarch64 tgt && (2 <=? k)%nat).

(** One lane of the two default conversions written with arithmetic on the
    bit pattern instead of bitwise operators; [from_half_arith] and
    [to_half_arith] below prove that the conversions compute them. *)
Definition from_half_bits (h : Z) : Z :=
  if h mod 2 ^ 15 <? 0x0400 then 0
  else (if h <? 2 ^ 15 then 0 else 2 ^ 31) + (h mod 2 ^ 15) * 2 ^ 13 + 112 * 2 ^ 23.

Definition to_half_bits (f : Z) : Z :=
  if f mod 2 ^ 31 <? 0x38800000 then 0
  else ((if f <? 2 ^ 31 then 0 else 2 ^ 15) + (f mod 2 ^ 31) / 2 ^ 13 - 114688) mod 2 ^ 16.

(** A vector all of whose lanes are well-formed [w]-bit patterns. *)
Definition wf_vec (w : Z) (k : nat) (v : Vec Z k) : Prop :=
  Forall (wf_lane w) (store k v).


End Skvx.

Import Skvx.

(** ** GrSamplerState

    "Represents the filtering and tile modes used to access a texture."  The
    class is [constexpr] throughout; [fWrapModes[2]] is kept as two fields. *)

Module GrSamplerState.

(** [enum class Filter : uint8_t { kNearest, kLinear, kMipMap, kLast = kMipMap };] *)
Inductive Filter : Type := kNearest | kLinear | kMipMap.
Definition Filter_kLast : Filter := kMipMap.

(** [enum class WrapMode : uint8_t { kClamp, kRepeat, kMirrorRepeat,
    kClampToBorder, kLast = kClampToBorder };] *)
Inductive WrapMode : Type := kClamp | kRepeat | kMirrorRepeat | kClampToBorder.
Definition WrapMode_kLast : WrapMode := kClampToBorder.

(** [static_cast<int>(...)] of the enumerators. *)
Definition Filter_int (f : Filter) : Z :=
  match f with
  | kNearest => 0
  | kLinear => 1
  | kMipMap => 2
  end.

Definition WrapMode_int (w : WrapMode) : Z :=
  match w with
  | kClamp => 0
  | kRepeat => 1
  | kMirrorRepeat => 2
  | kClampToBorder => 3
  end.

(** [==] on the enumerations. *)
Definition Filter_eqb (a b : Filter) : bool := Filter_int a =? Filter_int b.
Definition WrapMode_eqb (a b : WrapMode) : bool := WrapMode_int a =? WrapMode_int b.

Definition kFilterCount : Z := Filter_int Filter_kLast + 1.
Definition kWrapModeCount : Z := WrapMode_int WrapMode_kLast + 1.

(** The data members, with their default member initializers
    [{WrapMode::kClamp, WrapMode::kClamp}] and [Filter::kNearest]. *)
Record t : Type := mk {
  fWrapModes0 : WrapMode;
  fWrapModes1 : WrapMode;
  fFilter : Filter
}.

(** The constructors. *)
Definition default : t := mk kClamp kClamp kNearest.
Definition of_wrap_and_filter (wrapXAndY : WrapMode) (filter : Filter) : t :=
  mk wrapXAndY wrapXAndY filter.
Definition of_wraps_and_filter (wrapX wrapY : WrapMode) (filter : Filter) : t :=
  mk wrapX wrapY filter.
Definition of_filter (filter : Filter) : t := mk kClamp kClamp filter.

(** The accessors and setters. *)
Definition filter (s : t) : Filter := fFilter s.
Definition wrapModeX (s : t) : WrapMode := fWrapModes0 s.
Definition wrapModeY (s : t) : WrapMode := fWrapModes1 s.
Definition setFilterMode (s : t) (filterMode : Filter) : t :=
  mk (fWrapModes0 s) (fWrapModes1 s) filterMode.
Definition setWrapModeX (s : t) (wrap : WrapMode) : t :=
  mk wrap (fWrapModes1 s) (fFilter s).
Definition setWrapModeY (s : t) (wrap : WrapMode) : t :=
  mk (fWrapModes0 s) wrap (fFilter s).

(**
<<
    return (WrapMode::kClamp != fWrapModes[0] && WrapMode::kClampToBorder != fWrapModes[0]) ||
           (WrapMode::kClamp != fWrapModes[1] && WrapMode::kClampToBorder != fWrapModes[1]);
>> *)
Definition isRepeated (s : t) : bool :=
  (negb (WrapMode_eqb kClamp (fWrapModes0 s))
   && negb (WrapMode_eqb kClampToBorder (fWrapModes0 s)))
  || (negb (WrapMode_eqb kClamp (fWrapModes1 s))
      && negb (WrapMode_eqb kClampToBorder (fWrapModes1 s))).

(** [operator==] and [operator!=] *)
Definition op_eq (s that : t) : bool :=
  WrapMode_eqb (fWrapModes0 s) (fWrapModes0 that)
  && WrapMode_eqb (fWrapModes1 s) (fWrapModes1 that)
  && Filter_eqb (fFilter s) (fFilter that).
Definition op_ne (s that : t) : bool := negb (op_eq s that).

Definition kNumUniqueSamplers : Z :=
  (WrapMode_int WrapMode_kLast + 1) * (WrapMode_int WrapMode_kLast + 1)
  * (Filter_int Filter_kLast + 1).

(** The [int result] of [asIndex], before the assertion and the cast. *)
Definition asIndex_result (s : t) : Z :=
  let kNumWraps := WrapMode_int WrapMode_kLast + 1 in
  WrapMode_int (fWrapModes0 s) * 1
  + WrapMode_int (fWrapModes1 s) * kNumWraps
  + Filter_int (fFilter s) * kNumWraps * kNumWraps.

(** [asIndex]: [SkASSERT(result <= kNumUniqueSamplers); return
    static_cast<uint8_t>(result);].  The assertion is compiled out of release
    builds; it is a property of [asIndex_result] below. *)
Definition asIndex (s : t) : Z := asIndex_result s mod 2 ^ 8.

End GrSamplerState.

(** ** GrD3DBuffer::setResourceState

    The buffer's [fResourceState] and the barriers handed to
    [GrD3DGpu::addResourceBarriers], in order.  [D3D12_RESOURCE_STATES] is a
    flags enumeration of the Direct3D 12 headers; its values are integers and
    [D3D12_RESOURCE_STATE_GENERIC_READ] is taken as a parameter. *)

Module GrD3DBuffer.

(** [D3D12_RESOURCE_TRANSITION_BARRIER]: [StateBefore] and [StateAfter]; the
    barrier is always for this buffer's resource and all subresources. *)
Record Barrier : Type := mkBarrier { StateBefore : Z; StateAfter : Z }.

(**
<<
    if (newResourceState == fResourceState ||
        // GENERIC_READ encapsulates a lot of different read states
        (fResourceState == D3D12_RESOURCE_STATE_GENERIC_READ &&
         SkToBool(newResourceState | fResourceState))) {
        return;
    }
    ... barrier.StateBefore = fResourceState; barrier.StateAfter = newResourceState;
    gpu->addResourceBarriers(this->resource(), 1, &barrier);
    fResourceState = newResourceState;
>> *)
Definition setResourceState (D3D12_RESOURCE_STATE_GENERIC_READ : Z)
    (fResourceState : Z) (barriers : list Barrier) (newResourceState : Z)
  : Z * list Barrier :=
  if (newResourceState =? fResourceState)
     || ((fResourceState =? D3D12_RESOURCE_STATE_GENERIC_READ)
         && negb (Z.lor newResourceState fResourceState =? 0))
  then (fResourceState, barriers)
  else (newResourceState, barriers ++ [mkBarrier fResourceState newResourceState]).

End GrD3DBuffer.

(** * Properties *)

(** ** Lanes, indexing and the memory layout *)

Lemma lanes_pos (k : nat) : 0 < lanes k.
Proof. unfold lanes. apply Z.pow_pos_nonneg; lia. Qed.

Lemma lanes_S (k : nat) : lanes (S k) = 2 * lanes k.
Proof.
  unfold lanes. rewrite Nat2Z.inj_succ, Z.pow_succ_r by lia. reflexivity.
Qed.

Lemma lanes_half (k : nat) : lanes (S k) / 2 = lanes k.
Proof. rewrite lanes_S, Z.mul_comm. apply Z.div_mul. lia. Qed.

Lemma lanes_to_nat_S (k : nat) :
  Z.to_nat (lanes (S k)) = (Z.to_nat (lanes k) + Z.to_nat (lanes k))%nat.
Proof. pose proof (lanes_pos k). rewrite lanes_S. lia. Qed.

Lemma firstn_plus {A : Type} (a b : nat) (l : list A) :
  firstn (a + b) l = firstn a l ++ firstn b (skipn a l).
Proof.
  revert l. induction a as [|a IH]; intros l; simpl.
  - reflexivity.
  - destruct l as [|x l]; simpl.
    + now rewrite firstn_nil.
    + now rewrite IH.
Qed.

Lemma skipn_repeat {A : Type} (z : A) (n m : nat) :
  skipn n (repeat z m) = repeat z (m - n).
Proof.
  revert m. induction n as [|n IH]; intros [|m]; simpl; auto.
Qed.

Lemma firstn_repeat_le {A : Type} (z : A) (n m : nat) :
  (n <= m)%nat -> firstn n (repeat z m) = repeat z n.
Proof.
  revert m. induction n as [|n IH]; intros [|m] H; simpl; try lia; auto.
  f_equal. apply IH. lia.
Qed.

Section ContainerFacts.

Context {T : Type}.
Variable zero : T.

Lemma length_store (k : nat) (v : Vec T k) :
  length (store k v) = Z.to_nat (lanes k).
Proof.
  induction k as [|k IH]; simpl.
  - reflexivity.
  - rewrite length_app, !IH, lanes_to_nat_S. reflexivity.
Qed.

(** Inside the vector, [operator[]] reads the lane at that position of the
    memory image. *)
Lemma index_store (k : nat) (v : Vec T k) (i : Z) (d : T) :
  0 <= i < lanes k -> index k v i = nth (Z.to_nat i) (store k v) d.
Proof.
  revert v i. induction k as [|k IH]; intros v i Hi.
  - unfold lanes in Hi. simpl in *. replace i with 0 by lia. reflexivity.
  - cbn [index store]. rewrite lanes_half. rewrite lanes_S in Hi.
    pose proof (length_store k (lo v)) as Hlen.
    destruct (Z.ltb_spec i (lanes k)) as [Hlt|Hge].
    + rewrite app_nth1 by lia. apply IH. lia.
    + rewrite app_nth2 by lia. rewrite Hlen.
      replace (Z.to_nat i - Z.to_nat (lanes k))%nat with (Z.to_nat (i - lanes k)) by lia.
      apply IH. lia.
Qed.

(** Below the vector, every level takes the [lo] branch. *)
Lemma index_below (k : nat) (v : Vec T k) (i : Z) :
  i <= 0 -> index k v i = index k v 0.
Proof.
  revert v. induction k as [|k IH]; intros v Hi.
  - reflexivity.
  - cbn [index]. rewrite lanes_half. pose proof (lanes_pos k).
    destruct (Z.ltb_spec i (lanes k)); [|lia].
    destruct (Z.ltb_spec 0 (lanes k)); [|lia].
    apply IH. assumption.
Qed.

(** Above the vector, every level takes the [hi] branch. *)
Lemma index_above (k : nat) (v : Vec T k) (i : Z) :
  lanes k - 1 <= i -> index k v i = index k v (lanes k - 1).
Proof.
  revert v i. induction k as [|k IH]; intros v i Hi.
  - reflexivity.
  - cbn [index]. rewrite lanes_half. rewrite lanes_S in *. pose proof (lanes_pos k).
    destruct (Z.ltb_spec i (lanes k)); [lia|].
    destruct (Z.ltb_spec (2 * lanes k - 1) (lanes k)); [lia|].
    rewrite IH by lia. f_equal. lia.
Qed.

Lemma store_Load (k : nat) (l : list T) :
  (Z.to_nat (lanes k) <= length l)%nat ->
  store k (Load zero k l) = firstn (Z.to_nat (lanes k)) l.
Proof.
  revert l. induction k as [|k IH]; intros l Hl.
  - destruct l as [|x l]; simpl in *; [lia|reflexivity].
  - cbn [Load store lo hi]. rewrite lanes_to_nat_S in *.
    rewrite firstn_plus, !IH; [reflexivity| |lia].
    rewrite length_skipn. lia.
Qed.

(** Writing a vector to memory and reading it back gives the vector. *)
Lemma Load_store (k : nat) (v : Vec T k) (rest : list T) :
  Load zero k (store k v ++ rest) = v.
Proof.
  revert v rest. induction k as [|k IH]; intros v rest.
  - reflexivity.
  - cbn [Load store]. rewrite <- app_assoc, IH.
    rewrite <- (length_store k (lo v)), skipn_app, skipn_all, Nat.sub_diag.
    cbn [skipn app]. rewrite IH. destruct v; reflexivity.
Qed.

Lemma bit_pun_store (k : nat) (v : Vec T k) : bit_pun zero k (store k v) = v.
Proof.
  unfold bit_pun. rewrite <- (app_nil_r (store k v)). apply Load_store.
Qed.

Lemma store_inj (k : nat) (u v : Vec T k) : store k u = store k v -> u = v.
Proof.
  intros H. rewrite <- (bit_pun_store k u), <- (bit_pun_store k v), H. reflexivity.
Qed.

Lemma index_splat (k : nat) (x : T) (i : Z) : index k (splat k x) i = x.
Proof.
  revert i. induction k as [|k IH]; intros i; cbn [index splat lo hi].
  - reflexivity.
  - destruct (i <? lanes (S k) / 2); apply IH.
Qed.

(** The array [vals] of the initializer-list constructor. *)
Lemma memcpy_vals (xs : list T) (N : nat) :
  memcpy (repeat zero N) xs (Nat.min (length xs) N) = firstn N (xs ++ repeat zero N).
Proof.
  unfold memcpy. rewrite firstn_app, skipn_repeat.
  destruct (Nat.le_ge_cases (length xs) N) as [H|H].
  - rewrite Nat.min_l, firstn_all, firstn_all2 by lia.
    f_equal. rewrite firstn_repeat_le by lia. reflexivity.
  - rewrite Nat.min_r by lia.
    replace (N - N)%nat with 0%nat by lia.
    replace (N - length xs)%nat with 0%nat by lia.
    reflexivity.
Qed.

Lemma store_Vec_init (k : nat) (xs : list T) :
  store k (Vec_init zero k xs)
  = firstn (Z.to_nat (lanes k)) (xs ++ repeat zero (Z.to_nat (lanes k))).
Proof.
  destruct k as [|k].
  - destruct xs; reflexivity.
  - unfold Vec_init. rewrite memcpy_vals, lanes_half.
    set (N := Z.to_nat (lanes (S k))).
    set (vals := firstn N (xs ++ repeat zero N)).
    change (join (Load zero k (skipn 0 vals)) (Load zero k (skipn (Z.to_nat (lanes k)) vals)))
      with (Load zero (S k) vals).
    assert (Hlen : length vals = N).
    { unfold vals. rewrite length_firstn, length_app, repeat_length. lia. }
    rewrite store_Load by (fold N; lia).
    fold N. rewrite <- Hlen. apply firstn_all.
Qed.

End ContainerFacts.

(** ** Indexing is total and clamps *)

Lemma index_clamped {T : Type} (k : nat) (v : Vec T k) (i : Z) (d : T) :
  index k v i = nth (Z.to_nat (Z.max 0 (Z.min i (lanes k - 1)))) (store k v) d.
Proof.
  pose proof (lanes_pos k) as Hpos.
  destruct (Z.le_gt_cases i 0) as [Hlow|Hlow].
  - rewrite index_below by assumption.
    replace (Z.max 0 (Z.min i (lanes k - 1))) with 0 by lia.
    apply index_store. lia.
  - destruct (Z.le_gt_cases (lanes k - 1) i) as [Hhigh|Hhigh].
    + rewrite index_above by assumption.
      replace (Z.max 0 (Z.min i (lanes k - 1))) with (lanes k - 1) by lia.
      apply index_store. lia.
    + replace (Z.max 0 (Z.min i (lanes k - 1))) with i by lia.
      apply index_store. lia.
Qed.

(** Whatever the index, [operator[]] returns one of the lanes. *)
Lemma index_In {T : Type} (k : nat) (v : Vec T k) (i : Z) : In (index k v i) (store k v).
Proof.
  rewrite (index_clamped k v i (index k v i)). apply nth_In.
  pose proof (lanes_pos k). rewrite length_store. lia.
Qed.

(** C9. [operator[]] is defined for every [int] index and never reads outside
    the vector. For every vector [v] of [N = lanes k] lanes and every index
    [i], [v[i]] is the lane of the memory image at position [i] clamped to
    [[0, N-1]]: lane [i] for [0 <= i < N], lane [N-1] for [i >= N], lane [0]
    for [i < 0]. The position read is always inside the image. *)
Theorem index_total_clamped :
  forall (T : Type) (k : nat) (v : Vec T k) (i : Z) (d : T),
    let pos := Z.to_nat (Z.max 0 (Z.min i (lanes k - 1))) in
    index k v i = nth pos (store k v) d /\ (pos < length (store k v))%nat.
Proof.
  intros T k v i d pos. subst pos. split; [apply index_clamped|].
  pose proof (lanes_pos k). rewrite length_store. lia.
Qed.

(** ** The initializer-list constructor *)

Lemma nth_padded {T : Type} (zero : T) (xs : list T) (n i : nat) :
  (i < n)%nat -> nth i (firstn n (xs ++ repeat zero n)) zero = nth i xs zero.
Proof.
  intros Hi. rewrite nth_firstn.
  destruct (Nat.ltb_spec i n); [|lia].
  destruct (Nat.lt_ge_cases i (length xs)).
  - now rewrite app_nth1.
  - rewrite app_nth2, nth_repeat, nth_overflow by lia. reflexivity.
Qed.

(** C10. Building a [Vec<N,T>] from an initializer list never fails and reads
    at most [N] values: the lanes in memory order are the first [N] values of
    the list followed by zeros, so lane [i] is the [i]-th listed value when
    there is one and 0 otherwise, and values beyond the [N]-th are ignored.
    For [N = 1] the empty list gives 0 and any other list its first value. *)
Theorem Vec_init_lanes :
  forall (T : Type) (zero : T) (k : nat) (xs : list T),
    store k (Vec_init zero k xs)
    = firstn (Z.to_nat (lanes k)) (xs ++ repeat zero (Z.to_nat (lanes k)))
    /\ (forall i, 0 <= i < lanes k ->
          index k (Vec_init zero k xs) i = nth (Z.to_nat i) xs zero)
    /\ Vec_init zero 0 [] = zero
    /\ (forall x l, Vec_init zero 0 (x :: l) = x).
Proof.
  intros T zero k xs. split; [apply store_Vec_init|]. split; [|split; reflexivity].
  intros i Hi. rewrite (index_store k _ i zero Hi), store_Vec_init.
  apply nth_padded. lia.
Qed.

(** ** Shuffle *)

Lemma firstn_exact {T : Type} (l r : list T) (n : nat) :
  length l = n -> firstn n (l ++ r) = l.
Proof.
  intros <-. rewrite firstn_app, Nat.sub_diag, firstn_all. cbn [firstn].
  apply app_nil_r.
Qed.

(** C8, as the code has it. For a source vector [x] and a list [Ix] of
    [2^k'] indices, [shuffle<Ix...>(x)] has as many lanes as there are
    indices and its lane [j] is [x[Ix[j]]]; indices may repeat or leave source
    lanes out. The number of indices is not bounded by the width of the source:
    the result may be narrower, as wide, or wider. *)
Theorem shuffle_lanes :
  forall (T : Type) (zero : T) (k k' : nat) (Ix : list Z) (x : Vec T k),
    Z.of_nat (length Ix) = lanes k' ->
    store k' (shuffle zero k' Ix x) = map (index k x) Ix
    /\ length (store k' (shuffle zero k' Ix x)) = length Ix
    /\ (forall j, 0 <= j < lanes k' ->
          index k' (shuffle zero k' Ix x) j = index k x (nth (Z.to_nat j) Ix 0)).
Proof.
  intros T zero k k' Ix x HIx.
  assert (Hst : store k' (shuffle zero k' Ix x) = map (index k x) Ix).
  { unfold shuffle. rewrite store_Vec_init. apply firstn_exact.
    rewrite length_map. lia. }
  split; [exact Hst|]. split.
  - rewrite Hst. apply length_map.
  - intros j Hj. rewrite (index_store k' _ j (index k x 0) Hj), Hst.
    apply (map_nth (index k x)).
Qed.

(** The comment of the header: [shuffle<2,1,2,1,2,1,2,1>(rgba) ~> {B,G,B,G,B,G,B,G}];
    here a two-lane source and four indices. *)
Lemma shuffle_lanes_witness :
  Z.of_nat (length [0; 1; 0; 1]) = lanes 2
  /\ store 2 (shuffle 0 2 [0; 1; 0; 1] (join 10 20 : Vec Z 1)) = [10; 20; 10; 20].
Proof.
  split; [reflexivity|].
  exact (proj1 (shuffle_lanes Z 0 1 2 [0; 1; 0; 1] (join 10 20) eq_refl)).
Defined.

(** [shuffle<2,1,0,3>] swaps the first and third lanes of a four-lane vector. *)
Example shuffle_bgra :
  store 2 (shuffle 0 2 [2; 1; 0; 3] (Vec_init 0 2 [10; 20; 30; 40])) = [30; 20; 10; 40].
Proof. reflexivity. Qed.

(** C8 as stated fails: a shuffle whose result is wider than its source. *)
Lemma shuffle_wider_than_source :
  store 2 (shuffle 0 2 [0; 1; 0; 1] (join 10 20 : Vec Z 1)) = [10; 20; 10; 20]
  /\ ~ (lanes 2 <= lanes 1)
  /\ ~ (Z.of_nat (length (store 2 (shuffle 0 2 [0; 1; 0; 1] (join 10 20 : Vec Z 1))))
        <= Z.of_nat (length (store 1 (join 10 20 : Vec Z 1)))).
Proof.
  split; [reflexivity|]. split.
  - unfold lanes. simpl. lia.
  - simpl. lia.
Qed.

(** ** Scalar arithmetic on bit patterns *)

Lemma bits_pos (t : ity) : 0 < bits t.
Proof. destruct t; reflexivity. Qed.

Lemma pow2_bits_pos (t : ity) : 0 < 2 ^ bits t.
Proof. apply Z.pow_pos_nonneg; [lia|]. pose proof (bits_pos t). lia. Qed.

Lemma repr_range (t : ity) (v : Z) : wf_lane (bits t) (repr t v).
Proof. unfold wf_lane, repr. apply Z.mod_pos_bound, pow2_bits_pos. Qed.

Lemma repr_small (t : ity) (x : Z) : wf_lane (bits t) x -> repr t x = x.
Proof. unfold wf_lane, repr. intros H. now apply Z.mod_small. Qed.

Lemma value_congr (t : ity) (x : Z) : (value t x) mod 2 ^ bits t = x mod 2 ^ bits t.
Proof.
  unfold value. destruct (is_signed t && (2 ^ (bits t - 1) <=? x)); [|reflexivity].
  rewrite <- (Z.mod_add _ 1) by (pose proof (pow2_bits_pos t); lia).
  f_equal. lia.
Qed.

Lemma promoted_divides (t : ity) : (2 ^ bits t | 2 ^ bits (promoted t)).
Proof.
  destruct t; cbv -[Z.divide Z.pow]; 
    try apply Z.divide_refl.
  all: (exists (2 ^ 24) + exists (2 ^ 16)); reflexivity.
Qed.

Lemma convert_back_mod (t : ity) (v : Z) : convert_back t v = v mod 2 ^ bits t.
Proof.
  unfold convert_back, repr at 1.
  rewrite <- (Z.mod_mod_divide (value _ _) _ _ (promoted_divides t)).
  rewrite value_congr. unfold repr.
  rewrite !(Z.mod_mod_divide _ _ _ (promoted_divides t)). reflexivity.
Qed.

Lemma mod_add_congr (m a a' b b' : Z) :
  a mod m = a' mod m -> b mod m = b' mod m -> (a + b) mod m = (a' + b') mod m.
Proof. intros Ha Hb. rewrite (Zplus_mod a), (Zplus_mod a'), Ha, Hb. reflexivity. Qed.

Lemma mod_sub_congr (m a a' b b' : Z) :
  a mod m = a' mod m -> b mod m = b' mod m -> (a - b) mod m = (a' - b') mod m.
Proof. intros Ha Hb. rewrite (Zminus_mod a), (Zminus_mod a'), Ha, Hb. reflexivity. Qed.

Lemma mod_mul_congr (m a a' b b' : Z) :
  a mod m = a' mod m -> b mod m = b' mod m -> (a * b) mod m = (a' * b') mod m.
Proof. intros Ha Hb. rewrite (Zmult_mod a), (Zmult_mod a'), Ha, Hb. reflexivity. Qed.

(** Two integers congruent modulo [2^w] have the same [w] low bits. *)
Lemma low_bits_congr (w a b i : Z) :
  a mod 2 ^ w = b mod 2 ^ w -> 0 <= i < w -> Z.testbit a i = Z.testbit b i.
Proof.
  intros H Hi.
  rewrite <- (Z.mod_pow2_bits_low a w i), <- (Z.mod_pow2_bits_low b w i), H by lia.
  reflexivity.
Qed.

Lemma wf_high_bits (w x i : Z) : 0 <= w -> wf_lane w x -> w <= i -> Z.testbit x i = false.
Proof.
  intros Hw Hx Hi. rewrite <- (Z.mod_small x (2 ^ w)) by exact Hx.
  apply Z.mod_pow2_bits_high. lia.
Qed.

(** A bitwise operation computed on promoted values and converted back is
    the operation on the patterns. *)
Lemma bitwise_on_patterns (f : bool -> bool -> bool) (op : Z -> Z -> Z) (w a b x y : Z) :
  (forall u v i, 0 <= i -> Z.testbit (op u v) i = f (Z.testbit u i) (Z.testbit v i)) ->
  f false false = false ->
  0 <= w -> wf_lane w x -> wf_lane w y ->
  a mod 2 ^ w = x mod 2 ^ w -> b mod 2 ^ w = y mod 2 ^ w ->
  (op a b) mod 2 ^ w = op x y.
Proof.
  intros Hop Hff Hw Hx Hy Ha Hb. apply Z.bits_inj'. intros i Hi.
  destruct (Z.lt_ge_cases i w) as [Hlt|Hge].
  - rewrite Z.mod_pow2_bits_low, !Hop by lia.
    rewrite (low_bits_congr w a x i), (low_bits_congr w b y i) by (assumption || lia).
    reflexivity.
  - rewrite Z.mod_pow2_bits_high, Hop by lia.
    rewrite (wf_high_bits w x i), (wf_high_bits w y i) by assumption.
    now rewrite Hff.
Qed.

Lemma value_small (t : ity) (x : Z) : wf_lane (bits t) x -> is_signed t = false -> value t x = x.
Proof. intros _ H. unfold value. now rewrite H. Qed.

Lemma value_inj (t : ity) (x y : Z) :
  wf_lane (bits t) x -> wf_lane (bits t) y -> value t x = value t y -> x = y.
Proof.
  unfold wf_lane, value. intros Hx Hy.
  destruct (is_signed t && (2 ^ (bits t - 1) <=? x)),
           (is_signed t && (2 ^ (bits t - 1) <=? y)); lia.
Qed.

Lemma mask_of_bool_vmask (t : ity) (b : bool) :
  Portable.mask_of_bool t b = Native.vmask t b.
Proof.
  unfold Portable.mask_of_bool, Native.vmask, all_ones, repr.
  pose proof (pow2_bits_pos t).
  destruct b; [|apply Z.mod_0_l; lia].
  change (Z.lnot 0) with (-1).
  rewrite <- (Z.mod_add _ 1) by lia.
  rewrite Z.mod_small by lia. lia.
Qed.

(** ** Lane by lane: the vector-extension operators against the scalar ones *)

Section LaneAgreement.

Variable t : ity.
Variables x y : Z.
Hypothesis Hx : wf_lane (bits t) x.
Hypothesis Hy : wf_lane (bits t) y.

Lemma lane_add : Native.v_add (Native.int_vext t) x y = s_add (int_ops t) x y.
Proof.
  cbn [Native.v_add s_add Native.int_vext int_ops]. rewrite convert_back_mod.
  symmetry. apply mod_add_congr; apply value_congr.
Qed.

Lemma lane_sub : Native.v_sub (Native.int_vext t) x y = s_sub (int_ops t) x y.
Proof.
  cbn [Native.v_sub s_sub Native.int_vext int_ops]. rewrite convert_back_mod.
  symmetry. apply mod_sub_congr; apply value_congr.
Qed.

Lemma lane_mul : Native.v_mul (Native.int_vext t) x y = s_mul (int_ops t) x y.
Proof.
  cbn [Native.v_mul s_mul Native.int_vext int_ops]. rewrite convert_back_mod.
  symmetry. apply mod_mul_congr; apply value_congr.
Qed.

Lemma lane_div : Native.v_div (Native.int_vext t) x y = s_div (int_ops t) x y.
Proof.
  cbn [Native.v_div s_div Native.int_vext int_ops]. rewrite convert_back_mod.
  destruct (is_signed t) eqn:Hs; [reflexivity|].
  rewrite !value_small by assumption.
  unfold wf_lane in *.
  destruct (Z.eq_dec y 0) as [->|Hy0].
  - rewrite Z.div_0_r, Z.quot_0_r_ext by reflexivity. symmetry. apply Z.mod_0_l.
    pose proof (pow2_bits_pos t). lia.
  - rewrite Z.quot_div_nonneg by lia.
    symmetry. apply Z.mod_small. split.
    + apply Z.div_pos; lia.
    + apply Z.le_lt_trans with x; [|lia]. apply Z.div_le_upper_bound; nia.
Qed.

Lemma lane_xor : Native.v_xor (Native.int_vext t) x y = s_xor (int_ops t) x y.
Proof.
  cbn [Native.v_xor s_xor Native.int_vext int_ops]. rewrite convert_back_mod. symmetry.
  pose proof (bits_pos t).
  apply (bitwise_on_patterns xorb); auto using value_congr; try lia.
  intros. apply Z.lxor_spec.
Qed.

Lemma lane_and : Native.v_and (Native.int_vext t) x y = s_and (int_ops t) x y.
Proof.
  cbn [Native.v_and s_and Native.int_vext int_ops]. rewrite convert_back_mod. symmetry.
  pose proof (bits_pos t).
  apply (bitwise_on_patterns andb); auto using value_congr; try lia.
  intros. apply Z.land_spec.
Qed.

Lemma lane_or : Native.v_or (Native.int_vext t) x y = s_or (int_ops t) x y.
Proof.
  cbn [Native.v_or s_or Native.int_vext int_ops]. rewrite convert_back_mod. symmetry.
  pose proof (bits_pos t).
  apply (bitwise_on_patterns orb); auto using value_congr; try lia.
  intros. apply Z.lor_spec.
Qed.


Lemma all_ones_bits (w i : Z) :
  0 <= w -> 0 <= i -> Z.testbit (all_ones w) i = (i <? w).
Proof.
  intros Hw Hi. unfold all_ones.
  replace (2 ^ w - 1) with (Z.ones w) by (rewrite Z.ones_equiv; lia).
  destruct (Z.ltb_spec i w).
  - apply Z.ones_spec_low. lia.
  - apply Z.ones_spec_high. lia.
Qed.

Lemma lane_bnot : Native.v_bnot (Native.int_vext t) x = s_bnot (int_ops t) x.
Proof.
  cbn [Native.v_bnot s_bnot Native.int_vext int_ops]. rewrite convert_back_mod.
  pose proof (bits_pos t) as Hw.
  symmetry. apply Z.bits_inj'. intros i Hi.
  rewrite Z.lxor_spec, all_ones_bits by lia.
  destruct (Z.ltb_spec i (bits t)).
  - rewrite Z.mod_pow2_bits_low, Z.lnot_spec by lia.
    rewrite (low_bits_congr (bits t) (value t x) x i) by (apply value_congr || lia).
    now rewrite xorb_true_r.
  - rewrite Z.mod_pow2_bits_high by lia.
    rewrite (wf_high_bits (bits t) x i) by (assumption || lia). reflexivity.
Qed.

Lemma lane_shl (n : Z) : 0 <= n -> Native.v_shl (Native.int_vext t) x n = s_shl (int_ops t) x n.
Proof.
  intros Hn. cbn [Native.v_shl s_shl Native.int_vext int_ops]. rewrite convert_back_mod.
  rewrite !Z.shiftl_mul_pow2 by assumption.
  symmetry. apply mod_mul_congr; [apply value_congr|reflexivity].
Qed.

Lemma lane_shr (n : Z) : 0 <= n -> Native.v_shr (Native.int_vext t) x n = s_shr (int_ops t) x n.
Proof.
  intros Hn. cbn [Native.v_shr s_shr Native.int_vext int_ops]. rewrite convert_back_mod.
  destruct (is_signed t) eqn:Hs; [reflexivity|].
  rewrite value_small by assumption.
  symmetry. apply Z.mod_small. unfold wf_lane in Hx.
  rewrite Z.shiftr_div_pow2 by assumption.
  assert (0 < 2 ^ n) by (apply Z.pow_pos_nonneg; lia).
  split.
  - apply Z.div_pos; lia.
  - apply Z.le_lt_trans with x; [|lia]. apply Z.div_le_upper_bound; nia.
Qed.









(** The one operator whose lanes differ: [!] gives [1] on the scalar and all
    ones in the vector extension when the lane is zero; both give 0 otherwise. *)
Lemma lane_lnot :
  Native.v_lnot (Native.int_vext t) x = (if x =? 0 then all_ones (bits t) else 0)
  /\ s_lnot (int_ops t) x = (if x =? 0 then 1 else 0).
Proof.
  split; [reflexivity|].
  cbn [s_lnot int_ops]. unfold of_bool.
  assert (H0 : wf_lane (bits t) 0) by (pose proof (pow2_bits_pos t); unfold wf_lane; lia).
  replace (value t x =? 0) with (x =? 0).
  - destruct (x =? 0); apply repr_small; [|exact H0].
    unfold wf_lane. pose proof (bits_pos t).
    assert (2 ^ 1 <= 2 ^ bits t) by (apply Z.pow_le_mono_r; lia). lia.
  - destruct (Z.eqb_spec x 0) as [->|Hne]; symmetry.
    + apply Z.eqb_eq. unfold value.
      destruct (2 ^ (bits t - 1) <=? 0) eqn:E; [|now rewrite andb_false_r].
      apply Z.leb_le in E.
      assert (0 < 2 ^ (bits t - 1)) by (apply Z.pow_pos_nonneg; pose proof (bits_pos t); lia).
      lia.
    + apply Z.eqb_neq. intros H. apply Hne.
      apply (value_inj t x 0 Hx H0). rewrite H. symmetry.
      unfold value.
      destruct (2 ^ (bits t - 1) <=? 0) eqn:E; [|now rewrite andb_false_r].
      apply Z.leb_le in E.
      assert (0 < 2 ^ (bits t - 1)) by (apply Z.pow_pos_nonneg; pose proof (bits_pos t); lia).
      lia.
Qed.

End LaneAgreement.

(** ** The recursion on halves acts lane by lane *)

Section Halves.

Context {A B C : Type}.

Lemma index_halves1 (f : A -> B) (k : nat) (x : Vec A k) (i : Z) :
  index k (Portable.halves1 f k x) i = f (index k x i).
Proof.
  revert x i. induction k as [|k IH]; intros x i.
  - reflexivity.
  - cbn [index Portable.halves1 lo hi]. destruct (i <? lanes (S k) / 2); apply IH.
Qed.

Lemma index_halves2 (f : A -> B -> C) (k : nat) (x : Vec A k) (y : Vec B k) (i : Z) :
  index k (Portable.halves2 f k x y) i = f (index k x i) (index k y i).
Proof.
  revert x y i. induction k as [|k IH]; intros x y i.
  - reflexivity.
  - cbn [index Portable.halves2 lo hi]. destruct (i <? lanes (S k) / 2); apply IH.
Qed.

Lemma store_halves1 (f : A -> B) (k : nat) (x : Vec A k) :
  store k (Portable.halves1 f k x) = map f (store k x).
Proof.
  revert x. induction k as [|k IH]; intros x.
  - reflexivity.
  - cbn [store Portable.halves1 lo hi]. now rewrite map_app, !IH.
Qed.

Lemma map2_app (f : A -> B -> C) (u u' : list A) (v v' : list B) :
  length u = length v ->
  Native.map2 f (u ++ u') (v ++ v') = Native.map2 f u v ++ Native.map2 f u' v'.
Proof.
  revert v. induction u as [|a u IH]; intros [|b v] H; simpl in *; try discriminate.
  - reflexivity.
  - f_equal. apply IH. congruence.
Qed.

Lemma store_halves2 (f : A -> B -> C) (k : nat) (x : Vec A k) (y : Vec B k) :
  store k (Portable.halves2 f k x y) = Native.map2 f (store k x) (store k y).
Proof.
  revert x y. induction k as [|k IH]; intros x y.
  - reflexivity.
  - cbn [store Portable.halves2 lo hi].
    rewrite map2_app by (now rewrite !length_store). now rewrite !IH.
Qed.

(** Reinterpreting as [VExt], applying a lane-wise operator and
    reinterpreting back is the recursion on halves with that lane operator. *)
Lemma vext_binary (zero : C) (f : A -> B -> C) (k : nat) (x : Vec A k) (y : Vec B k) :
  bit_pun zero k (Native.map2 f (store k x) (store k y)) = Portable.halves2 f k x y.
Proof. rewrite <- store_halves2. apply bit_pun_store. Qed.

Lemma vext_unary (zero : B) (f : A -> B) (k : nat) (x : Vec A k) :
  bit_pun zero k (map f (store k x)) = Portable.halves1 f k x.
Proof. rewrite <- store_halves1. apply bit_pun_store. Qed.



End Halves.

(** ** The elementwise laws *)

(** C2. On every lane type [T], with whatever scalar operators it has, and for
    every width, operands and index: lane [i] of [x + y] is the scalar sum of
    lane [i] of [x] and lane [i] of [y], computed in [T] (for an integer type:
    after integral promotion, and converted back to [T]); likewise for
    [-], [*], [/], [^], [&] and [|]. *)
Theorem elementwise_laws :
  forall (T : Type) (S : ScalarOps T) (k : nat) (x y : Vec T k) (i : Z),
    index k (Portable.op_add S k x y) i = s_add S (index k x i) (index k y i)
    /\ index k (Portable.op_sub S k x y) i = s_sub S (index k x i) (index k y i)
    /\ index k (Portable.op_mul S k x y) i = s_mul S (index k x i) (index k y i)
    /\ index k (Portable.op_div S k x y) i = s_div S (index k x i) (index k y i)
    /\ index k (Portable.op_xor S k x y) i = s_xor S (index k x i) (index k y i)
    /\ index k (Portable.op_and S k x y) i = s_and S (index k x i) (index k y i)
    /\ index k (Portable.op_or S k x y) i = s_or S (index k x i) (index k y i).
Proof.
  intros T S k x y i. repeat split; apply index_halves2.
Qed.

(** The scalar operations of the 8-bit unsigned type wrap around. *)
Example elementwise_uint8 :
  store 2 (Portable.op_add (int_ops U8) 2
             (Vec_init 0 2 [200; 1; 2; 3]) (Vec_init 0 2 [100; 1; 2; 255]))
  = [44; 2; 4; 2].
Proof. reflexivity. Qed.

(** ** The mask convention *)

Lemma mask_of_bool_all_ones (m : ity) (b : bool) :
  Portable.mask_of_bool m b = if b then all_ones (bits m) else 0.
Proof. rewrite mask_of_bool_vmask. reflexivity. Qed.

(** C6. Each of the six relational operators gives, on every lane, the
    all-ones pattern of the mask type when the comparison holds for that lane
    and zero when it does not, and nothing else. The mask type is [int32_t] for
    [float], [int64_t] for [double] and [T] itself otherwise; the all-ones
    pattern has every bit of the lane set, and zero has none. *)
Theorem comparison_lanes_are_masks :
  forall (T : Type) (S : ScalarOps T) (k : nat) (x y : Vec T k) (i : Z),
    let m := Mask (s_type S) in
    let mask (b : bool) := if b then all_ones (bits m) else 0 in
    (index k (Portable.op_eq S k x y) i = mask (s_eq S (index k x i) (index k y i))
     /\ index k (Portable.op_ne S k x y) i = mask (s_ne S (index k x i) (index k y i))
     /\ index k (Portable.op_le S k x y) i = mask (s_le S (index k x i) (index k y i))
     /\ index k (Portable.op_ge S k x y) i = mask (s_ge S (index k x i) (index k y i))
     /\ index k (Portable.op_lt S k x y) i = mask (s_lt S (index k x i) (index k y i))
     /\ index k (Portable.op_gt S k x y) i = mask (s_gt S (index k x i) (index k y i)))
    /\ (forall j, 0 <= j < bits m ->
          Z.testbit (all_ones (bits m)) j = true /\ Z.testbit 0 j = false)
    /\ wf_lane (bits m) (all_ones (bits m))
    /\ (Mask Float = I32 /\ Mask Double = I64 /\ forall t, Mask (Int t) = t).
Proof.
  intros T S k x y i m mask. split; [|split; [|split]].
  - unfold Portable.op_eq, Portable.op_ne, Portable.op_le, Portable.op_ge,
      Portable.op_lt, Portable.op_gt.
    rewrite !index_halves2, !mask_of_bool_all_ones. repeat split.
  - intros j Hj. split; [|apply Z.bits_0].
    rewrite all_ones_bits by lia. apply Z.ltb_lt. lia.
  - unfold wf_lane, all_ones. pose proof (pow2_bits_pos m). lia.
  - repeat split.
Qed.

(** [any] and [all] of the mask [{true, false, true, true}]. *)
Example any_all_mixed_mask :
  any 2 (Portable.op_lt (int_ops I32) 2
           (Vec_init 0 2 [1; 5; 1; 1]) (Vec_init 0 2 [2; 2; 2; 2])) = true
  /\ all 2 (Portable.op_lt (int_ops I32) 2
              (Vec_init 0 2 [1; 5; 1; 1]) (Vec_init 0 2 [2; 2; 2; 2])) = false.
Proof. split; reflexivity. Qed.

(** ** The two strategies compared *)


Ltac wf_vec_by_cases :=
  unfold wf_vec; cbn [store lo hi val app];
  repeat (apply Forall_cons; [unfold wf_lane; simpl; lia|]); apply Forall_nil.


(** X20. Lane by lane, [!] on the two strategies: both give 0 on a non-zero lane;
    on a zero lane the portable operator gives 1 and the vector extension all
    ones. *)
Lemma lnot_lanes (t : ity) (k : nat) (x : Vec Z k) (i : Z) :
  wf_vec (bits t) k x ->
  index k (Portable.op_lnot (int_ops t) k x) i = (if index k x i =? 0 then 1 else 0)
  /\ index k (Native.op_lnot 0 (Native.int_vext t) k x) i
     = (if index k x i =? 0 then all_ones (bits t) else 0).
Proof.
  intros Hx. unfold Native.op_lnot, Portable.op_lnot, Native.to_vec, Native.to_vext.
  rewrite vext_unary, !index_halves1.
  assert (Hi : wf_lane (bits t) (index k x i)).
  { eapply Forall_forall; [exact Hx|]. apply index_In. }
  destruct (lane_lnot t (index k x i) Hi) as [-> ->]. split; reflexivity.
Qed.

(** C1 at its failing input. [!] applied to a lane holding 0: the portable
    strategy returns 1 ([!x.val], a [bool], converted to [T]), the
    vector-extension strategy returns the lane of all ones; shown for one
    [int32_t] lane and for four [uint8_t] lanes. *)
Theorem logical_not_strategies_differ :
  Portable.op_lnot (int_ops I32) 0 (0 : Vec Z 0) = 1
  /\ Native.op_lnot 0 (Native.int_vext I32) 0 (0 : Vec Z 0) = 4294967295
  /\ store 2 (Portable.op_lnot (int_ops U8) 2 (Vec_init 0 2 [0; 1; 2; 0])) = [1; 0; 0; 1]
  /\ store 2 (Native.op_lnot 0 (Native.int_vext U8) 2 (Vec_init 0 2 [0; 1; 2; 0]))
     = [255; 0; 0; 255].
Proof. repeat split. Qed.

(** ** Lanes of the operations built on the operators *)

Lemma index_splat_int {T : Type} (S : ScalarOps T) (k : nat) (z i : Z) :
  index k (Portable.splat_int S k z) i = s_of_int S z.
Proof. apply index_splat. Qed.

Lemma index_cast (s d : ity) (k : nat) (x : Vec Z k) (i : Z) :
  index k (Portable.cast s d k x) i = Portable.int_conv s d (index k x i).
Proof. apply index_halves1. Qed.

Lemma pun_id (k : nat) (x : Vec Z k) : pun k x = x.
Proof. apply bit_pun_store. Qed.

(** The unsigned scalar operators as arithmetic modulo [2^w]. *)
Lemma s_add_mod (t : ity) (x y : Z) : s_add (int_ops t) x y = (x + y) mod 2 ^ bits t.
Proof. symmetry. apply lane_add. Qed.

Lemma s_sub_mod (t : ity) (x y : Z) : s_sub (int_ops t) x y = (x - y) mod 2 ^ bits t.
Proof. symmetry. apply lane_sub. Qed.

Lemma s_mul_mod (t : ity) (x y : Z) : s_mul (int_ops t) x y = (x * y) mod 2 ^ bits t.
Proof. symmetry. apply lane_mul. Qed.

Lemma s_div_unsigned (t : ity) (x y : Z) :
  is_signed t = false -> wf_lane (bits t) x -> wf_lane (bits t) y ->
  s_div (int_ops t) x y = x / y.
Proof.
  intros Hs Hx Hy. rewrite <- lane_div by assumption.
  cbn [Native.v_div Native.int_vext]. now rewrite Hs.
Qed.

Lemma mod_wf (w v : Z) : 0 <= w -> wf_lane w (v mod 2 ^ w).
Proof. intros Hw. apply Z.mod_pos_bound. apply Z.pow_pos_nonneg; lia. Qed.

(** Lane [i] of [div255(x)], for any 16-bit lane. *)
Lemma div255_lane (k : nat) (x : Vec Z k) (i : Z) :
  index k (div255 k x) i = (((index k x i + 127) mod 2 ^ 16) / 255) mod 2 ^ 8.
Proof.
  unfold div255, Portable.op_div, Portable.op_add.
  rewrite index_cast, !index_halves2, !index_splat_int.
  cbn [s_of_int int_ops]. rewrite s_add_mod.
  change (repr U16 127) with 127. change (repr U16 255) with 255. change (bits U16) with 16.
  rewrite s_div_unsigned; [reflexivity|reflexivity| |].
  - apply (mod_wf 16). lia.
  - unfold wf_lane. simpl. lia.
Qed.

(** Lane [i] of [approx_scale(x,y)] and of [mull(x,y)], for 8-bit lanes. *)
Lemma approx_scale_lane (k : nat) (x y : Vec Z k) (i : Z) :
  wf_lane 8 (index k x i) -> wf_lane 8 (index k y i) ->
  index k (approx_scale k x y) i = (index k x i * index k y i + index k x i) / 256.
Proof.
  unfold wf_lane. intros Hx Hy.
  unfold approx_scale, Portable.op_div, Portable.op_add, Portable.op_mul.
  rewrite index_cast, !index_halves2, !index_splat_int, !index_cast.
  cbn [s_of_int int_ops]. rewrite s_add_mod, s_mul_mod.
  change (repr U16 256) with 256. change (bits U16) with 16.
  set (a := index k x i) in *. set (b := index k y i) in *.
  assert (HX : Portable.int_conv U8 U16 a = a).
  { unfold Portable.int_conv, repr. cbn. apply Z.mod_small. lia. }
  assert (HY : Portable.int_conv U8 U16 b = b).
  { unfold Portable.int_conv, repr. cbn. apply Z.mod_small. lia. }
  rewrite HX, HY.
  assert (Hab : 0 <= a * b + a < 2 ^ 16) by (simpl; nia).
  rewrite (Z.mod_small (a * b)) by (simpl in *; nia).
  rewrite (Z.mod_small (a * b + a)) by exact Hab.
  rewrite s_div_unsigned; [|reflexivity|exact Hab|unfold wf_lane; simpl; lia].
  unfold Portable.int_conv, repr. cbn -[Z.div Z.mul Z.add Z.modulo].
  apply Z.mod_small. split.
  - apply Z.div_pos; lia.
  - apply Z.div_lt_upper_bound; simpl in *; nia.
Qed.

Lemma mull_lane (k : nat) (x y : Vec Z k) (i : Z) :
  wf_lane 8 (index k x i) -> wf_lane 8 (index k y i) ->
  index k (mull k x y) i = index k x i * index k y i.
Proof.
  unfold wf_lane. intros Hx Hy. unfold mull, Portable.op_mul.
  rewrite index_halves2, !index_cast, s_mul_mod.
  unfold Portable.int_conv, repr. cbn -[Z.div Z.mul Z.add Z.modulo].
  rewrite (Z.mod_small (index k x i)), (Z.mod_small (index k y i)) by lia.
  apply Z.mod_small. simpl in *. nia.
Qed.

(** ** div255 *)

(** C3 as stated fails at the top of the 16-bit domain: for the lane 65535
    the sum [x+127] wraps around in [uint16_t] and the result is 0, where
    [(x+127)/255] is 257, a value no [uint8_t] lane can hold. *)
Lemma div255_fails_at_65535 :
  index 0 (div255 0 (65535 : Vec Z 0)) 0 = 0
  /\ (65535 + 127) / 255 = 257
  /\ index 0 (div255 0 (65535 : Vec Z 0)) 0 <> (65535 + 127) / 255
  /\ index 0 (div255 0 (65535 : Vec Z 0)) 0 <> ((65535 + 127) / 255) mod 2 ^ 8.
Proof. repeat split; discriminate. Qed.

Lemma div255_in_range (k : nat) (x : Vec Z k) (i : Z) :
  0 <= index k x i <= 65152 ->
  index k (div255 k x) i = (index k x i + 127) / 255
  /\ wf_lane 8 (index k (div255 k x) i).
Proof.
  intros Hx. rewrite div255_lane.
  set (a := index k x i) in *.
  rewrite (Z.mod_small (a + 127)) by (simpl; lia).
  assert (Hq : 0 <= (a + 127) / 255 < 2 ^ 8).
  { split; [apply Z.div_pos; lia|apply Z.div_lt_upper_bound; simpl; lia]. }
  rewrite (Z.mod_small _ _ Hq). split; [reflexivity|exact Hq].
Qed.

(** C3, on the domain where it holds. For every width and every lane [i]
    whose value [x] is in [[0, 65152]] (every product of two 8-bit values is:
    they are at most 65025), lane [i] of [div255] is [(x+127)/255] under
    integer division, and that is [x/255] rounded to the nearest integer: it
    is less than one half away from [x/255]. *)
Theorem div255_exact :
  forall (k : nat) (x : Vec Z k) (i : Z),
    0 <= index k x i <= 65152 ->
    index k (div255 k x) i = (index k x i + 127) / 255
    /\ 2 * Z.abs (255 * index k (div255 k x) i - index k x i) < 255
    /\ wf_lane 8 (index k (div255 k x) i).
Proof.
  intros k x i Hx. destruct (div255_in_range k x i Hx) as [Heq Hwf].
  split; [exact Heq|]. split; [|exact Hwf].
  rewrite Heq. set (a := index k x i) in *.
  pose proof (Z.div_mod (a + 127) 255 ltac:(lia)) as Hdm.
  pose proof (Z.mod_pos_bound (a + 127) 255 ltac:(lia)) as Hr.
  lia.
Qed.

Lemma div255_exact_witness :
  0 <= index 2 (Vec_init 0 2 [382; 255; 65025; 128]) 0 <= 65152
  /\ index 2 (div255 2 (Vec_init 0 2 [382; 255; 65025; 128])) 0 = 1.
Proof.
  assert (H : 0 <= index 2 (Vec_init 0 2 [382; 255; 65025; 128]) 0 <= 65152)
    by (change (0 <= 382 <= 65152); lia).
  split; [exact H|].
  exact (proj1 (div255_exact 2 (Vec_init 0 2 [382; 255; 65025; 128]) 0 H)).
Defined.

(** X15. Above 65152 the quotient does not fit the 8-bit lane any more, and from
    65409 on the 16-bit sum wraps: what [div255] returns on the whole domain. *)
Lemma div255_whole_domain (k : nat) (x : Vec Z k) (i : Z) :
  wf_lane 16 (index k x i) ->
  index k (div255 k x) i
  = if index k x i <=? 65152 then (index k x i + 127) / 255
    else if index k x i <=? 65407 then 0
    else if index k x i =? 65408 then 1
    else 0.
Proof.
  unfold wf_lane. intros Hx. rewrite div255_lane.
  set (a := index k x i) in *. change (2 ^ 16) with 65536 in *.
  destruct (Z.leb_spec a 65152).
  { rewrite (Z.mod_small (a + 127)) by (simpl; lia).
    apply Z.mod_small.
    split; [apply Z.div_pos; lia|apply Z.div_lt_upper_bound; simpl; lia]. }
  destruct (Z.leb_spec a 65407).
  { rewrite (Z.mod_small (a + 127)) by (simpl; lia).
    replace ((a + 127) / 255) with 256; [reflexivity|].
    apply Z.div_unique with (a + 127 - 256 * 255); lia. }
  destruct (Z.eqb_spec a 65408) as [->|Hne]; [reflexivity|].
  replace ((a + 127) mod 65536) with (a + 127 - 65536).
  - rewrite Z.div_small by lia. reflexivity.
  - apply Z.mod_unique with 1; lia.
Qed.

(** ** approx_scale *)

Lemma approx_scale_arith (x y : Z) :
  0 <= x <= 255 -> 0 <= y <= 255 ->
  Z.abs ((x * y + x) / 256 - (x * y + 127) / 255) <= 1.
Proof.
  intros Hx Hy.
  pose proof (Z.div_mod (x * y + x) 256 ltac:(lia)) as H1.
  pose proof (Z.mod_pos_bound (x * y + x) 256 ltac:(lia)) as R1.
  pose proof (Z.div_mod (x * y + 127) 255 ltac:(lia)) as H2.
  pose proof (Z.mod_pos_bound (x * y + 127) 255 ltac:(lia)) as R2.
  set (a := (x * y + x) / 256) in *. set (d := (x * y + 127) / 255) in *.
  assert (Ha : 0 <= a <= x) by nia.
  lia.
Qed.

(** C4. For all 8-bit lanes [x], [y]: [approx_scale(x,y)] is [(x*y+x)/256],
    it is within one of [div255] of the 16-bit product, and it is exact at the
    ends: [y] when [x] is 255, [x] when [y] is 255, and 0 when either is 0. *)
Theorem approx_scale_bound :
  forall (k : nat) (x y : Vec Z k) (i : Z),
    wf_lane 8 (index k x i) -> wf_lane 8 (index k y i) ->
    let a := index k (approx_scale k x y) i in
    a = (index k x i * index k y i + index k x i) / 256
    /\ Z.abs (a - index k (div255 k (mull k x y)) i) <= 1
    /\ (index k x i = 255 -> a = index k y i)
    /\ (index k x i = 0 -> a = 0)
    /\ (index k y i = 255 -> a = index k x i)
    /\ (index k y i = 0 -> a = 0).
Proof.
  intros k x y i Hx Hy a. subst a.
  rewrite (approx_scale_lane k x y i Hx Hy).
  assert (Hm : index k (mull k x y) i = index k x i * index k y i)
    by now apply mull_lane.
  unfold wf_lane in Hx, Hy. simpl in Hx, Hy.
  assert (Hd : index k (div255 k (mull k x y)) i
               = (index k x i * index k y i + 127) / 255).
  { rewrite <- Hm. apply div255_in_range. rewrite Hm. nia. }
  rewrite Hd. set (u := index k x i) in *. set (v := index k y i) in *.
  split; [reflexivity|]. split; [apply approx_scale_arith; lia|].
  repeat split; intros E.
  - rewrite E. symmetry. apply Z.div_unique with (255 - v); lia.
  - rewrite E. reflexivity.
  - rewrite E. replace (u * 255 + u) with (u * 256) by lia. apply Z.div_mul. lia.
  - rewrite E. apply Z.div_small. lia.
Qed.

Lemma approx_scale_bound_witness :
  wf_lane 8 (index 0 (255 : Vec Z 0) 0) /\ wf_lane 8 (index 0 (37 : Vec Z 0) 0)
  /\ index 0 (approx_scale 0 255 37) 0 = 37.
Proof.
  assert (H1 : wf_lane 8 (index 0 (255 : Vec Z 0) 0)) by (change (0 <= 255 < 256); lia).
  assert (H2 : wf_lane 8 (index 0 (37 : Vec Z 0) 0)) by (change (0 <= 37 < 256); lia).
  split; [exact H1|]. split; [exact H2|].
  exact (proj1 (proj2 (proj2 (approx_scale_bound 0 255 37 0 H1 H2))) eq_refl).
Defined.

(** ** Select *)

Lemma bits_Mask (T : ty) : bits (Mask T) = size_bits T.
Proof. destruct T; reflexivity. Qed.

Lemma all_ones_wf (w : Z) : 0 <= w -> wf_lane w (all_ones w).
Proof.
  intros Hw. unfold wf_lane, all_ones.
  assert (0 < 2 ^ w) by (apply Z.pow_pos_nonneg; lia). lia.
Qed.

Lemma zero_wf (w : Z) : 0 <= w -> wf_lane w 0.
Proof.
  intros Hw. unfold wf_lane.
  assert (0 < 2 ^ w) by (apply Z.pow_pos_nonneg; lia). lia.
Qed.

Lemma land_all_ones (w a : Z) : 0 <= w -> wf_lane w a -> Z.land (all_ones w) a = a.
Proof.
  intros Hw Ha. unfold all_ones.
  replace (2 ^ w - 1) with (Z.ones w) by (rewrite Z.ones_equiv; lia).
  rewrite Z.land_comm, Z.land_ones by assumption. now apply Z.mod_small.
Qed.

(** The bitwise select on one lane: an all-ones condition keeps [t], a zero
    condition keeps [e]. *)
Lemma select_lane (m : ity) (t e : Z) :
  wf_lane (bits m) t -> wf_lane (bits m) e ->
  select_bits m 0 (all_ones (bits m)) t e = t /\ select_bits m 0 0 t e = e.
Proof.
  intros Ht He. pose proof (bits_pos m) as Hw.
  assert (H1 : wf_lane (bits m) (all_ones (bits m))) by (apply all_ones_wf; lia).
  assert (H0 : wf_lane (bits m) 0) by (apply zero_wf; lia).
  unfold select_bits. rewrite !pun_id.
  split.
  - change (s_or (int_ops m) (s_and (int_ops m) (all_ones (bits m)) t)
              (s_and (int_ops m) (s_bnot (int_ops m) (all_ones (bits m))) e) = t).
    rewrite <- (lane_bnot m _ H1). cbn [Native.v_bnot Native.int_vext].
    rewrite Z.lxor_nilpotent.
    rewrite <- (lane_and m _ _ H1 Ht), <- (lane_and m _ _ H0 He).
    cbn [Native.v_and Native.int_vext].
    rewrite land_all_ones, Z.land_0_l by (assumption || lia).
    rewrite <- (lane_or m _ _ Ht H0). cbn [Native.v_or Native.int_vext].
    apply Z.lor_0_r.
  - change (s_or (int_ops m) (s_and (int_ops m) 0 t)
              (s_and (int_ops m) (s_bnot (int_ops m) 0) e) = e).
    rewrite <- (lane_bnot m _ H0). cbn [Native.v_bnot Native.int_vext].
    rewrite Z.lxor_0_l.
    rewrite <- (lane_and m _ _ H0 Ht), <- (lane_and m _ _ H1 He).
    cbn [Native.v_and Native.int_vext].
    rewrite land_all_ones, Z.land_0_l by (assumption || lia).
    rewrite <- (lane_or m _ _ H0 He). cbn [Native.v_or Native.int_vext].
    apply Z.lor_0_l.
Qed.

Lemma index_select_bits (m : ity) (k : nat) (c t e : Vec Z k) (i : Z) :
  index k (select_bits m k c t e) i
  = select_bits m 0 (index k c i) (index k t i) (index k e i).
Proof.
  unfold select_bits. rewrite !pun_id.
  unfold Portable.op_or, Portable.op_and, Portable.op_bnot.
  rewrite !index_halves2, index_halves1. reflexivity.
Qed.

(** [if_then_else] acts lane by lane, at every width. *)
Lemma index_if_then_else (T : ty) (k : nat) (c t e : Vec Z k) (i : Z) :
  index k (if_then_else T k c t e) i
  = if_then_else T 0 (index k c i) (index k t i) (index k e i).
Proof.
  revert c t e i. induction k as [|k IH]; intros c t e i.
  - reflexivity.
  - cbn [if_then_else]. destruct (4 <? lanes (S k)).
    + cbn [index lo hi]. destruct (i <? lanes (S k) / 2); apply IH.
    + apply index_select_bits.
Qed.

(** C5. For every width, every lane type and every lane [i]: when lane [i]
    of the condition is all ones, lane [i] of [if_then_else(cond, t, e)] is the
    bit pattern of [t[i]]; when it is zero, the bit pattern of [e[i]].  The
    lanes are bit patterns, so this covers NaN payloads and negative zero, and
    the other lanes of the condition are free to differ. *)
Theorem select_by_mask :
  forall (T : ty) (k : nat) (cond t e : Vec Z k) (i : Z),
    wf_lane (size_bits T) (index k t i) ->
    wf_lane (size_bits T) (index k e i) ->
    (index k cond i = all_ones (size_bits T) ->
       index k (if_then_else T k cond t e) i = index k t i)
    /\ (index k cond i = 0 ->
       index k (if_then_else T k cond t e) i = index k e i).
Proof.
  intros T k cond t e i Ht He. rewrite <- bits_Mask in *.
  rewrite index_if_then_else.
  change (if_then_else T 0 (index k cond i) (index k t i) (index k e i))
    with (select_bits (Mask T) 0 (index k cond i) (index k t i) (index k e i)).
  destruct (select_lane (Mask T) _ _ Ht He) as [H1 H0].
  split; intros ->; assumption.
Qed.

(** A NaN with a payload and a negative zero selected from [t], a negative
    NaN from [e]. *)
Lemma select_by_mask_witness :
  store 2 (if_then_else Float 2
             (Vec_init 0 2 [0xFFFFFFFF; 0; 0; 0xFFFFFFFF])
             (Vec_init 0 2 [0x7FC00001; 1; 2; 0x80000000])
             (Vec_init 0 2 [5; 6; 0xFFC12345; 8]))
  = [0x7FC00001; 6; 0xFFC12345; 0x80000000]
  /\ index 2 (if_then_else Float 2
                (Vec_init 0 2 [0xFFFFFFFF; 0; 0; 0xFFFFFFFF])
                (Vec_init 0 2 [0x7FC00001; 1; 2; 0x80000000])
                (Vec_init 0 2 [5; 6; 0xFFC12345; 8])) 3
     = 0x80000000.
Proof.
  split; [reflexivity|].
  refine (proj1 (select_by_mask Float 2
                   (Vec_init 0 2 [0xFFFFFFFF; 0; 0; 0xFFFFFFFF])
                   (Vec_init 0 2 [0x7FC00001; 1; 2; 0x80000000])
                   (Vec_init 0 2 [5; 6; 0xFFC12345; 8]) 3 _ _) eq_refl).
  - change (0 <= 0x80000000 < 2 ^ 32). lia.
  - change (0 <= 8 < 2 ^ 32). lia.
Defined.

(** ** Half floats *)

(** The sign bit of an [n+1]-bit pattern, and the pattern with it cleared. *)
Lemma top_bit (n x : Z) :
  0 <= n -> 0 <= x < 2 ^ (n + 1) ->
  Z.land x (2 ^ n) = (if x <? 2 ^ n then 0 else 2 ^ n)
  /\ Z.lxor x (Z.land x (2 ^ n)) = x mod 2 ^ n.
Proof.
  intros Hn Hx.
  assert (Hpow : 0 < 2 ^ n) by (apply Z.pow_pos_nonneg; lia).
  assert (Hhigh : forall i, n < i -> Z.testbit x i = false).
  { intros i Hi. apply (wf_high_bits (n + 1)); unfold wf_lane; lia. }
  assert (Htop : Z.testbit x n = negb (x <? 2 ^ n)).
  { destruct (Z.ltb_spec x (2 ^ n)) as [Hlt|Hge]; cbn [negb].
    - apply (wf_high_bits n); unfold wf_lane; lia.
    - apply Z.testbit_true; [assumption|].
      replace (x / 2 ^ n) with 1; [reflexivity|].
      rewrite Z.pow_add_r in Hx by lia.
      apply Z.div_unique with (x - 2 ^ n); lia. }
  split; apply Z.bits_inj'; intros i Hi.
  - rewrite Z.land_spec, Z.pow2_bits_eqb by assumption.
    destruct (Z.eqb_spec n i) as [<-|Hni].
    + rewrite Htop, andb_true_r.
      destruct (x <? 2 ^ n); cbn [negb];
        [now rewrite Z.bits_0|now rewrite Z.pow2_bits_true].
    + rewrite andb_false_r.
      destruct (x <? 2 ^ n); [now rewrite Z.bits_0|].
      rewrite Z.pow2_bits_false by assumption. reflexivity.
  - rewrite Z.lxor_spec, Z.land_spec, Z.pow2_bits_eqb by assumption.
    destruct (Z.lt_ge_cases i n) as [Hlt|Hge].
    + rewrite Z.mod_pow2_bits_low by assumption.
      destruct (Z.eqb_spec n i); [lia|].
      now rewrite andb_false_r, xorb_false_r.
    + rewrite Z.mod_pow2_bits_high by lia.
      destruct (Z.eqb_spec n i) as [<-|Hni].
      * rewrite andb_true_r. apply xorb_nilpotent.
      * rewrite Hhigh by lia. reflexivity.
Qed.

Lemma mask_of_bool_U32 (b : bool) :
  Portable.mask_of_bool U32 b = if b then all_ones 32 else 0.
Proof. apply mask_of_bool_all_ones. Qed.

Local Ltac wf32 := unfold wf_lane; cbn [bits]; change (2 ^ 32) with 4294967296; lia.

(** The conversions act lane by lane, at every width. *)
Lemma to_half_finite_ftz_lanes (k : nat) (x : Vec Z k) (i : Z) :
  index k (to_half_finite_ftz k x) i
  = Portable.int_conv U32 U16
      (select_bits U32 0
         (Portable.mask_of_bool U32
            (s_lt (int_ops U32)
               (s_xor (int_ops U32) (index k x i)
                  (s_and (int_ops U32) (index k x i) (repr U32 0x80000000)))
               (repr U32 0x38800000)))
         (repr U32 0)
         (s_sub (int_ops U32)
            (s_add (int_ops U32)
               (s_shr (int_ops U32)
                  (s_and (int_ops U32) (index k x i) (repr U32 0x80000000)) 16)
               (s_shr (int_ops U32)
                  (s_xor (int_ops U32) (index k x i)
                     (s_and (int_ops U32) (index k x i) (repr U32 0x80000000)))
                  13))
            (repr U32 (Z.shiftl (127 - 15) 10)))).
Proof.
  unfold to_half_finite_ftz. cbv zeta.
  rewrite index_cast, index_if_then_else. cbn [if_then_else Mask]. rewrite !pun_id.
  unfold Portable.op_sub, Portable.op_add, Portable.op_shr, Portable.op_lt,
    Portable.op_xor, Portable.op_and.
  repeat (rewrite ?index_halves2, ?index_halves1, ?index_splat_int).
  reflexivity.
Qed.

Lemma from_half_finite_ftz_lanes (k : nat) (x : Vec Z k) (i : Z) :
  index k (from_half_finite_ftz k x) i
  = select_bits I32 0
      (Portable.mask_of_bool U32
         (s_lt (int_ops U32)
            (s_xor (int_ops U32) (Portable.int_conv U16 U32 (index k x i))
               (s_and (int_ops U32) (Portable.int_conv U16 U32 (index k x i))
                  (repr U32 0x8000)))
            (repr U32 0x0400)))
      float_zero
      (s_add (int_ops U32)
         (s_add (int_ops U32)
            (s_shl (int_ops U32)
               (s_and (int_ops U32) (Portable.int_conv U16 U32 (index k x i))
                  (repr U32 0x8000)) 16)
            (s_shl (int_ops U32)
               (s_xor (int_ops U32) (Portable.int_conv U16 U32 (index k x i))
                  (s_and (int_ops U32) (Portable.int_conv U16 U32 (index k x i))
                     (repr U32 0x8000)))
               13))
         (repr U32 (Z.shiftl (127 - 15) 23))).
Proof.
  unfold from_half_finite_ftz. cbv zeta.
  rewrite index_if_then_else. cbn [if_then_else Mask]. rewrite !pun_id.
  unfold Portable.op_add, Portable.op_shl, Portable.op_lt, Portable.op_xor, Portable.op_and.
  repeat (rewrite ?index_halves2, ?index_halves1, ?index_splat_int, ?index_splat, ?index_cast).
  reflexivity.
Qed.

(** One lane of [from_half_finite_ftz], in arithmetic: the exponent and
    mantissa field [em] moves up by 13 bits and is rebiased by 112, the sign
    moves up by 16 bits, and lanes with a zero exponent field give [0.0f]. *)
Lemma from_half_finite_ftz_arith (k : nat) (x : Vec Z k) (i : Z) :
  wf_lane 16 (index k x i) ->
  index k (from_half_finite_ftz k x) i = from_half_bits (index k x i).
Proof.
  rewrite from_half_finite_ftz_lanes. unfold from_half_bits.
  set (h := index k x i).
  intros Hh. unfold wf_lane in Hh. change (2 ^ 16) with 65536 in Hh.
  destruct (top_bit 15 h ltac:(lia) ltac:(change (2 ^ (15 + 1)) with 65536; lia))
    as [Hs Hem].
  pose proof (Z.mod_pos_bound h (2 ^ 15) ltac:(reflexivity)) as Hemr.
  set (em := h mod 2 ^ 15) in *.
  set (s := if h <? 2 ^ 15 then 0 else 2 ^ 15) in *.
  assert (Hsr : s = 0 \/ s = 32768) by (subst s; destruct (h <? 2 ^ 15); auto).
  change (2 ^ 15) with 32768 in *.
  assert (Hwide : Portable.int_conv U16 U32 h = h).
  { unfold Portable.int_conv. change (value U16 h) with h. apply repr_small. wf32. }
  rewrite Hwide.
  change (repr U32 0x8000) with 32768. change (repr U32 0x0400) with 1024.
  change (repr U32 (Z.shiftl (127 - 15) 23)) with 939524096.
  rewrite <- (lane_and U32 h 32768) by wf32.
  cbn [Native.v_and Native.int_vext]. rewrite Hs in *.
  rewrite <- (lane_xor U32 h s) by (destruct Hsr as [-> | ->]; wf32).
  cbn [Native.v_xor Native.int_vext]. rewrite Hem.
  rewrite mask_of_bool_U32.
  change (s_lt (int_ops U32) em 1024) with (em <? 1024).
  rewrite <- !lane_shl by lia. cbn [Native.v_shl Native.int_vext].
  rewrite !s_add_mod, !Z.shiftl_mul_pow2 by lia.
  change (bits U32) with 32.
  match goal with |- select_bits _ _ _ _ ?v = _ =>
    assert (Hv : wf_lane (bits I32) v) by (apply (mod_wf 32); lia);
    destruct (select_lane I32 float_zero v (zero_wf 32 ltac:(lia)) Hv) as [H1 H0]
  end.
  change (bits I32) with 32 in H1.
  destruct (Z.ltb_spec em 1024) as [Hd|Hd].
  - exact H1.
  - rewrite H0. clear H0 H1 Hv.
    change (2 ^ 16) with 65536. change (2 ^ 13) with 8192.
    change (2 ^ 32) with 4294967296. change (2 ^ 31) with 2147483648.
    change (2 ^ 23) with 8388608.
    replace (if h <? 32768 then 0 else 2147483648) with (s * 65536)
      by (subst s; destruct (h <? 32768); reflexivity).
    rewrite (Z.mod_small (s * 65536)) by (destruct Hsr as [-> | ->]; lia).
    rewrite (Z.mod_small (em * 8192)) by lia.
    rewrite (Z.mod_small (s * 65536 + em * 8192)) by (destruct Hsr as [-> | ->]; lia).
    rewrite Z.mod_small by (destruct Hsr as [-> | ->]; lia). lia.
Qed.


(** One lane of [to_half_finite_ftz], in arithmetic: lanes whose exponent and
    mantissa field is below that of [2^-14] give 0; otherwise the field moves
    down by 13 bits and is rebiased, the sign moves down by 16 bits, and the
    sum is truncated to 16 bits. *)
Lemma to_half_finite_ftz_arith (k : nat) (x : Vec Z k) (i : Z) :
  wf_lane 32 (index k x i) ->
  index k (to_half_finite_ftz k x) i = to_half_bits (index k x i).
Proof.
  rewrite to_half_finite_ftz_lanes. unfold to_half_bits.
  set (f := index k x i).
  intros Hf. unfold wf_lane in Hf. change (2 ^ 32) with 4294967296 in Hf.
  destruct (top_bit 31 f ltac:(lia) ltac:(change (2 ^ (31 + 1)) with 4294967296; lia))
    as [Hs Hem].
  pose proof (Z.mod_pos_bound f (2 ^ 31) ltac:(reflexivity)) as Hemr.
  set (em := f mod 2 ^ 31) in *.
  set (s := if f <? 2 ^ 31 then 0 else 2 ^ 31) in *.
  assert (Hsr : s = 0 \/ s = 2147483648) by (subst s; destruct (f <? 2 ^ 31); auto).
  change (2 ^ 31) with 2147483648 in *.
  change (repr U32 0x80000000) with 2147483648.
  change (repr U32 0x38800000) with 947912704.
  change (repr U32 (Z.shiftl (127 - 15) 10)) with 114688. change (repr U32 0) with 0.
  rewrite <- (lane_and U32 f 2147483648) by wf32.
  cbn [Native.v_and Native.int_vext]. rewrite Hs in *.
  rewrite <- (lane_xor U32 f s) by (destruct Hsr as [-> | ->]; wf32).
  cbn [Native.v_xor Native.int_vext]. rewrite Hem.
  rewrite mask_of_bool_U32.
  change (s_lt (int_ops U32) em 947912704) with (em <? 947912704).
  rewrite <- (lane_shr U32 s) by (lia || destruct Hsr as [-> | ->]; wf32).
  rewrite <- (lane_shr U32 em) by (lia || wf32).
  cbn [Native.v_shr Native.int_vext is_signed].
  rewrite s_sub_mod, s_add_mod, !Z.shiftr_div_pow2 by lia.
  change (bits U32) with 32.
  match goal with |- Portable.int_conv _ _ (select_bits _ _ _ _ ?v) = _ =>
    assert (Hv : wf_lane (bits U32) v) by (apply (mod_wf 32); lia);
    destruct (select_lane U32 0 v (zero_wf 32 ltac:(lia)) Hv) as [H1 H0]
  end.
  change (bits U32) with 32 in H1.
  destruct (Z.ltb_spec em 947912704) as [Hd|Hd].
  - rewrite H1. reflexivity.
  - rewrite H0. clear H0 H1 Hv.
    unfold Portable.int_conv. rewrite value_small by (reflexivity || apply (mod_wf 32); lia).
    unfold repr. change (bits U16) with 16.
    rewrite (Z.mod_mod_divide _ (2 ^ 32) (2 ^ 16)) by (exists (2 ^ 16); reflexivity).
    replace (if f <? 2147483648 then 0 else 2 ^ 15) with (s / 2 ^ 16)
      by (subst s; destruct (f <? 2147483648); reflexivity).
    assert (Hsd : 0 <= s / 2 ^ 16 <= 32768) by (destruct Hsr as [-> | ->]; cbv; split; discriminate).
    assert (Hed : 0 <= em / 2 ^ 13 < 262144).
    { split; [apply Z.div_pos; [lia|reflexivity]|].
      apply Z.div_lt_upper_bound; [reflexivity|]. change (2 ^ 13 * 262144) with 2147483648. lia. }
    rewrite (Z.mod_small (s / 2 ^ 16 + em / 2 ^ 13)) by (change (2 ^ 32) with 4294967296; lia).
    reflexivity.
Qed.


Lemma to_half_arith (k : nat) (x : Vec Z k) (i : Z) :
  wf_lane 32 (index k x i) -> index k (to_half k x) i = to_half_bits (index k x i).
Proof.
  revert x i. induction k as [|k IH]; intros x i.
  - cbn [to_half]. apply to_half_finite_ftz_arith.
  - cbn [to_half]. destruct (4 <? lanes (S k)).
    + cbn [index lo hi]. destruct (i <? lanes (S k) / 2); apply IH.
    + apply to_half_finite_ftz_arith.
Qed.

Lemma from_half_arith (k : nat) (x : Vec Z k) (i : Z) :
  wf_lane 16 (index k x i) -> index k (from_half k x) i = from_half_bits (index k x i).
Proof.
  revert x i. induction k as [|k IH]; intros x i.
  - cbn [from_half]. apply from_half_finite_ftz_arith.
  - cbn [from_half]. destruct (4 <? lanes (S k)).
    + cbn [index lo hi]. destruct (i <? lanes (S k) / 2); apply IH.
    + apply from_half_finite_ftz_arith.
Qed.

(** The fields of a pattern, in arithmetic. *)
Lemma half_exponent_div (h : Z) : half_exponent h = (h / 2 ^ 10) mod 2 ^ 5.
Proof.
  unfold half_exponent. change 0x1F with (Z.ones 5).
  rewrite Z.land_ones, Z.shiftr_div_pow2 by lia. reflexivity.
Qed.

Lemma float_exponent_div (f : Z) : float_exponent f = (f / 2 ^ 23) mod 2 ^ 8.
Proof.
  unfold float_exponent. change 0xFF with (Z.ones 8).
  rewrite Z.land_ones, Z.shiftr_div_pow2 by lia. reflexivity.
Qed.

Lemma float_mantissa_mod (f : Z) : float_mantissa f = f mod 2 ^ 23.
Proof.
  unfold float_mantissa. change 0x7FFFFF with (Z.ones 23).
  now rewrite Z.land_ones by lia.
Qed.

Lemma half_mantissa_mod (h : Z) : half_mantissa h = h mod 2 ^ 10.
Proof.
  unfold half_mantissa. change 0x3FF with (Z.ones 10).
  now rewrite Z.land_ones by lia.
Qed.

(** A normal half becomes a well-formed float pattern and comes back. *)
Lemma half_round_trip (h : Z) :
  wf_lane 16 h -> 1 <= half_exponent h <= 30 ->
  wf_lane 32 (from_half_bits h) /\ to_half_bits (from_half_bits h) = h.
Proof.
  intros Hh He. unfold from_half_bits.
  rewrite half_exponent_div in He. unfold wf_lane in Hh.
  change (2 ^ 16) with 65536 in *. change (2 ^ 15) with 32768 in *.
  change (2 ^ 10) with 1024 in *. change (2 ^ 5) with 32 in *.
  change (2 ^ 13) with 8192 in *. change (2 ^ 31) with 2147483648 in *.
  change (2 ^ 23) with 8388608 in *.
  remember (h mod 32768) as em eqn:Eem.
  assert (Hem : 1024 <= em < 31744 /\ (h = em \/ h = em + 32768)).
  { subst em. Z.div_mod_to_equations. lia. }
  clear Eem He.
  destruct (Z.ltb_spec em 1024) as [Hlt|_]; [lia|].
  remember (if h <? 32768 then 0 else 2147483648) as s eqn:Es.
  assert (Hs : (s = 0 /\ h = em) \/ (s = 2147483648 /\ h = em + 32768)).
  { subst s. destruct (Z.ltb_spec h 32768); lia. }
  clear Es.
  remember (s + em * 8192 + 112 * 8388608) as f eqn:Ef.
  assert (Hf : wf_lane 32 f) by (subst f; destruct Hs as [[-> _]|[-> _]]; wf32).
  split; [exact Hf|]. unfold to_half_bits.
  change (2 ^ 16) with 65536 in *. change (2 ^ 15) with 32768 in *.
  change (2 ^ 13) with 8192 in *. change (2 ^ 31) with 2147483648 in *.
  assert (Hfm : f mod 2147483648 = em * 8192 + 939524096).
  { subst f. destruct Hs as [[-> _]|[-> _]]; Z.div_mod_to_equations; lia. }
  rewrite Hfm.
  destruct (Z.ltb_spec (em * 8192 + 939524096) 947912704) as [Hlt|_]; [lia|].
  replace ((em * 8192 + 939524096) / 8192) with (em + 114688)
    by (Z.div_mod_to_equations; lia).
  replace (if f <? 2147483648 then 0 else 32768) with (h - em).
  - replace (h - em + (em + 114688) - 114688) with h by lia.
    apply Z.mod_small. lia.
  - destruct (Z.ltb_spec f 2147483648); lia.
Qed.

(** A half with a zero exponent field converts to [0.0f]. *)
Lemma half_subnormal_flushed (h : Z) :
  half_exponent h = 0 -> from_half_bits h = float_zero.
Proof.
  intros He. unfold from_half_bits.
  rewrite half_exponent_div in He.
  change (2 ^ 15) with 32768 in *. change (2 ^ 10) with 1024 in *.
  change (2 ^ 5) with 32 in *.
  destruct (Z.ltb_spec (h mod 32768) 1024) as [_|Hge]; [reflexivity|].
  exfalso. Z.div_mod_to_equations. lia.
Qed.

(** The exponent and mantissa field of a float below [2^-14]. *)
Lemma float_below_min_normal_half (f : Z) :
  float_magnitude_2p149 f < 2 ^ 135 -> f mod 2 ^ 31 < 0x38800000.
Proof.
  unfold float_magnitude_2p149.
  rewrite float_exponent_div, float_mantissa_mod.
  pose proof (Z.mod_pos_bound (f / 2 ^ 23) (2 ^ 8) ltac:(reflexivity)) as He.
  pose proof (Z.mod_pos_bound f (2 ^ 23) ltac:(reflexivity)) as Hm.
  assert (Hsplit : f mod 2 ^ 31 = (f / 2 ^ 23) mod 2 ^ 8 * 2 ^ 23 + f mod 2 ^ 23).
  { change (2 ^ 31) with 2147483648. change (2 ^ 23) with 8388608.
    change (2 ^ 8) with 256. Z.div_mod_to_equations. lia. }
  rewrite Hsplit. clear Hsplit.
  generalize dependent ((f / 2 ^ 23) mod 2 ^ 8). intros e He.
  generalize dependent (f mod 2 ^ 23). intros m Hm.
  change (2 ^ 8) with 256 in He.
  destruct (Z.eqb_spec e 0) as [->|Hne]; intros Hmag.
  - change (2 ^ 23) with 8388608 in *. lia.
  - assert (He112 : e <= 112).
    { destruct (Z.le_gt_cases e 112) as [|Hbig]; [assumption|exfalso].
      assert (2 ^ 112 <= 2 ^ (e - 1)) by (apply Z.pow_le_mono_r; lia).
      assert (2 ^ 135 <= (2 ^ 23 + m) * 2 ^ (e - 1)); [|lia].
      change (2 ^ 135) with (2 ^ 23 * 2 ^ 112).
      apply Z.mul_le_mono_nonneg; lia. }
    change (2 ^ 23) with 8388608 in *. lia.
Qed.

Lemma float_small_flushed (f : Z) :
  float_magnitude_2p149 f < 2 ^ 135 -> to_half_bits f = 0.
Proof.
  intros Hmag. unfold to_half_bits.
  pose proof (float_below_min_normal_half f Hmag) as Hlt.
  destruct (Z.ltb_spec (f mod 2 ^ 31) 947912704); [reflexivity|lia].
Qed.

(** * Further properties of the header *)

(** ** Memory round trips, broadcast and lane writes *)

(** Two vectors with the same lanes at every position are the same vector. *)
Lemma vec_ext {T : Type} (k : nat) (u v : Vec T k) :
  (forall i, 0 <= i < lanes k -> index k u i = index k v i) -> u = v.
Proof.
  revert u v. induction k as [|k IH]; intros u v H.
  - apply (H 0). unfold lanes. simpl. lia.
  - pose proof (lanes_pos k) as Hpos.
    destruct u as [ul uh], v as [vl vh]. f_equal; apply IH; intros i Hi.
    + specialize (H i). cbn [index lo hi] in H. rewrite lanes_half in H.
      destruct (Z.ltb_spec i (lanes k)); [|lia].
      apply H. rewrite lanes_S. lia.
    + specialize (H (i + lanes k)). cbn [index lo hi] in H. rewrite lanes_half in H.
      destruct (Z.ltb_spec (i + lanes k) (lanes k)); [lia|].
      replace (i + lanes k - lanes k) with i in H by lia.
      apply H. rewrite lanes_S. lia.
Qed.

Lemma store_splat {T : Type} (k : nat) (x : T) :
  store k (splat k x) = repeat x (Z.to_nat (lanes k)).
Proof.
  induction k as [|k IH]; cbn [store splat lo hi val].
  - reflexivity.
  - rewrite IH, <- repeat_app, <- lanes_to_nat_S. reflexivity.
Qed.

(** X1. [store] writes exactly [N] lanes; [Load] from a buffer that begins
    with a stored vector gives that vector back whatever follows it in the
    buffer; and storing what was loaded from a buffer of at least [N] lanes
    reproduces the first [N] lanes of the buffer. *)
Theorem load_store_round_trip :
  forall (T : Type) (zero : T) (k : nat) (v : Vec T k) (rest l : list T),
    length (store k v) = Z.to_nat (lanes k)
    /\ Load zero k (store k v ++ rest) = v
    /\ ((Z.to_nat (lanes k) <= length l)%nat ->
        store k (Load zero k l) = firstn (Z.to_nat (lanes k)) l).
Proof.
  intros T zero k v rest l. split; [apply length_store|].
  split; [apply Load_store|apply store_Load].
Qed.

(** X2. The initializer-list constructor applied to the lanes of a vector,
    followed by any surplus values, rebuilds the vector. *)
Theorem Vec_init_of_lanes :
  forall (T : Type) (zero : T) (k : nat) (v : Vec T k) (surplus : list T),
    Vec_init zero k (store k v ++ surplus) = v.
Proof.
  intros T zero k v surplus. apply (store_inj zero k).
  rewrite store_Vec_init, <- app_assoc.
  apply firstn_exact, length_store.
Qed.

(** X3. The broadcast constructor puts the value in every lane: reading any
    index gives it back, and the memory image is [N] copies of it. *)
Theorem broadcast_lanes :
  forall (T : Type) (k : nat) (x : T) (i : Z),
    index k (splat k x) i = x
    /\ store k (splat k x) = repeat x (Z.to_nat (lanes k)).
Proof.
  intros T k x i. split; [apply index_splat|apply store_splat].
Qed.

Lemma index_set_lane_same {T : Type} (k : nat) (v : Vec T k) (i : Z) (x : T) :
  index k (set_lane k v i x) i = x.
Proof.
  revert v i. induction k as [|k IH]; intros v i.
  - reflexivity.
  - cbn [set_lane]. destruct (i <? lanes (S k) / 2) eqn:E;
      cbn [index lo hi]; rewrite E; apply IH.
Qed.

Lemma index_set_lane_other {T : Type} (k : nat) (v : Vec T k) (i j : Z) (x : T) :
  0 <= i < lanes k -> 0 <= j < lanes k -> i <> j ->
  index k (set_lane k v i x) j = index k v j.
Proof.
  revert v i j. induction k as [|k IH]; intros v i j Hi Hj Hij.
  - unfold lanes in *. simpl in *. lia.
  - rewrite lanes_S in Hi, Hj. cbn [set_lane]. rewrite lanes_half.
    destruct (Z.ltb_spec i (lanes k)); cbn [index lo hi]; rewrite lanes_half;
      destruct (Z.ltb_spec j (lanes k)); try reflexivity; apply IH; lia.
Qed.

Lemma set_lane_below {T : Type} (k : nat) (v : Vec T k) (i : Z) (x : T) :
  i <= 0 -> set_lane k v i x = set_lane k v 0 x.
Proof.
  revert v. induction k as [|k IH]; intros v Hi.
  - reflexivity.
  - cbn [set_lane]. rewrite lanes_half. pose proof (lanes_pos k).
    destruct (Z.ltb_spec i (lanes k)); [|lia].
    destruct (Z.ltb_spec 0 (lanes k)); [|lia].
    now rewrite IH.
Qed.

Lemma set_lane_above {T : Type} (k : nat) (v : Vec T k) (i : Z) (x : T) :
  lanes k - 1 <= i -> set_lane k v i x = set_lane k v (lanes k - 1) x.
Proof.
  revert v i. induction k as [|k IH]; intros v i Hi.
  - reflexivity.
  - cbn [set_lane]. rewrite lanes_half. rewrite lanes_S in *. pose proof (lanes_pos k).
    destruct (Z.ltb_spec i (lanes k)); [lia|].
    destruct (Z.ltb_spec (2 * lanes k - 1) (lanes k)); [lia|].
    rewrite IH by lia. do 2 f_equal. lia.
Qed.

(** X4. Writing a lane through [operator[]]: the lane written reads back the
    new value at the same index, whatever the index; for two distinct
    positions inside the vector the other lane is unchanged; and a write below
    the vector lands in lane 0, a write above it in lane [N-1], so no write
    falls outside the vector. *)
Theorem lane_write :
  forall (T : Type) (k : nat) (v : Vec T k) (i j : Z) (x : T),
    index k (set_lane k v i x) i = x
    /\ (0 <= i < lanes k -> 0 <= j < lanes k -> i <> j ->
        index k (set_lane k v i x) j = index k v j)
    /\ (i <= 0 -> set_lane k v i x = set_lane k v 0 x)
    /\ (lanes k - 1 <= i -> set_lane k v i x = set_lane k v (lanes k - 1) x)
    /\ length (store k (set_lane k v i x)) = length (store k v).
Proof.
  intros T k v i j x. split; [apply index_set_lane_same|].
  split; [apply index_set_lane_other|].
  split; [apply set_lane_below|]. split; [apply set_lane_above|].
  now rewrite !length_store.
Qed.

(** ** Reductions *)

(** X5. On integer lanes, such as masks, [any] holds exactly when some lane
    is non-zero and [all] exactly when every lane is non-zero; a vector has at
    least one lane, so [all] implies [any]. *)
Theorem any_all_lanes :
  forall (k : nat) (x : Vec Z k),
    any k x = existsb (fun v => negb (v =? 0)) (store k x)
    /\ all k x = forallb (fun v => negb (v =? 0)) (store k x)
    /\ (all k x = true -> any k x = true).
Proof.
  induction k as [|k IH]; intros x.
  - cbn [any all store existsb forallb val]. rewrite orb_false_r, andb_true_r.
    repeat split; auto.
  - destruct (IH (lo x)) as [Hal [Hll Hil]], (IH (hi x)) as [Hah [Hlh Hih]].
    cbn [any all store]. rewrite existsb_app, forallb_app, Hal, Hah, Hll, Hlh.
    repeat split. intros H. apply andb_true_iff in H as [H1 _].
    rewrite <- Hll in H1. rewrite <- Hal, (Hil H1). reflexivity.
Qed.

(** ** Minimum and maximum *)

Lemma hmin_In {T : Type} (S : ScalarOps T) (k : nat) (x : Vec T k) :
  In (Portable.hmin S k x) (store k x).
Proof.
  induction k as [|k IH].
  - left. reflexivity.
  - cbn [Portable.hmin store]. unfold Portable.std_min. apply in_or_app.
    destruct (s_lt S _ _); [right|left]; apply IH.
Qed.

Lemma hmax_In {T : Type} (S : ScalarOps T) (k : nat) (x : Vec T k) :
  In (Portable.hmax S k x) (store k x).
Proof.
  induction k as [|k IH].
  - left. reflexivity.
  - cbn [Portable.hmax store]. unfold Portable.std_max. apply in_or_app.
    destruct (s_lt S _ _); [right|left]; apply IH.
Qed.

Lemma std_min_value (t : ity) (a b : Z) :
  value t (Portable.std_min (int_ops t) a b) = Z.min (value t a) (value t b).
Proof.
  unfold Portable.std_min. cbn [s_lt int_ops].
  destruct (Z.ltb_spec (value t b) (value t a)); lia.
Qed.

Lemma std_max_value (t : ity) (a b : Z) :
  value t (Portable.std_max (int_ops t) a b) = Z.max (value t a) (value t b).
Proof.
  unfold Portable.std_max. cbn [s_lt int_ops].
  destruct (Z.ltb_spec (value t a) (value t b)); lia.
Qed.

Lemma hmin_le (t : ity) (k : nat) (x : Vec Z k) (v : Z) :
  In v (store k x) -> value t (Portable.hmin (int_ops t) k x) <= value t v.
Proof.
  induction k as [|k IH]; cbn [Portable.hmin store].
  - intros [<-|[]]. reflexivity.
  - intros Hin. rewrite std_min_value.
    apply in_app_or in Hin as [Hin|Hin]; apply IH in Hin; lia.
Qed.

Lemma hmax_ge (t : ity) (k : nat) (x : Vec Z k) (v : Z) :
  In v (store k x) -> value t v <= value t (Portable.hmax (int_ops t) k x).
Proof.
  induction k as [|k IH]; cbn [Portable.hmax store].
  - intros [<-|[]]. reflexivity.
  - intros Hin. rewrite std_max_value.
    apply in_app_or in Hin as [Hin|Hin]; apply IH in Hin; lia.
Qed.

(** X6. On a vector of any integer type the horizontal [min] is one of the
    lanes and no lane is smaller than it, and the horizontal [max] is one of
    the lanes and no lane is larger, in the signed or unsigned order of the
    type; hence [min(x) <= max(x)]. *)
Theorem horizontal_min_max :
  forall (t : ity) (k : nat) (x : Vec Z k),
    In (Portable.hmin (int_ops t) k x) (store k x)
    /\ In (Portable.hmax (int_ops t) k x) (store k x)
    /\ (forall v, In v (store k x) ->
          value t (Portable.hmin (int_ops t) k x) <= value t v
          /\ value t v <= value t (Portable.hmax (int_ops t) k x))
    /\ value t (Portable.hmin (int_ops t) k x) <= value t (Portable.hmax (int_ops t) k x).
Proof.
  intros t k x. split; [apply hmin_In|]. split; [apply hmax_In|]. split.
  - intros v Hv. split; [now apply hmin_le|now apply hmax_ge].
  - apply hmin_le, hmax_In.
Qed.

(** X7. The element-wise [min] and [max] of two vectors of an integer type
    hold, in every lane, the smaller and the larger of the two lanes; each
    result lane is one of the two operand lanes. *)
Theorem elementwise_min_max :
  forall (t : ity) (k : nat) (x y : Vec Z k) (i : Z),
    value t (index k (Portable.op_min (int_ops t) k x y) i)
    = Z.min (value t (index k x i)) (value t (index k y i))
    /\ value t (index k (Portable.op_max (int_ops t) k x y) i)
       = Z.max (value t (index k x i)) (value t (index k y i))
    /\ (index k (Portable.op_min (int_ops t) k x y) i = index k x i
        \/ index k (Portable.op_min (int_ops t) k x y) i = index k y i)
    /\ (index k (Portable.op_max (int_ops t) k x y) i = index k x i
        \/ index k (Portable.op_max (int_ops t) k x y) i = index k y i).
Proof.
  intros t k x y i. unfold Portable.op_min, Portable.op_max.
  rewrite !index_halves2.
  split; [apply std_min_value|]. split; [apply std_max_value|].
  unfold Portable.std_min, Portable.std_max.
  split; destruct (s_lt (int_ops t) _ _); auto.
Qed.

(** ** mad *)

(** X8. [mad(f, m, a)] is the vector product followed by the vector sum, on
    every lane type and at every width: the product is converted to the lane
    type before the addition, and nothing is fused. *)
Theorem mad_is_mul_then_add :
  forall (T : Type) (S : ScalarOps T) (k : nat) (f m a : Vec T k),
    Portable.mad S k f m a = Portable.op_add S k (Portable.op_mul S k f m) a.
Proof.
  intros T S k. induction k as [|k IH]; intros f m a.
  - reflexivity.
  - cbn [Portable.mad]. rewrite !IH. reflexivity.
Qed.

(** ** cast *)

Lemma pow2_bits_divide (s d : ity) : bits s <= bits d -> (2 ^ bits s | 2 ^ bits d).
Proof.
  intros H. exists (2 ^ (bits d - bits s)).
  rewrite <- Z.pow_add_r by (pose proof (bits_pos s); lia). f_equal. lia.
Qed.

Lemma int_conv_round_trip (s d : ity) (x : Z) :
  bits s <= bits d -> wf_lane (bits s) x ->
  Portable.int_conv d s (Portable.int_conv s d x) = x.
Proof.
  intros Hsd Hx. unfold Portable.int_conv, repr.
  rewrite <- (Z.mod_mod_divide (value d _) _ _ (pow2_bits_divide s d Hsd)).
  rewrite value_congr, Z.mod_mod by (pose proof (pow2_bits_pos d); lia).
  rewrite (Z.mod_mod_divide _ _ _ (pow2_bits_divide s d Hsd)).
  rewrite value_congr. now apply Z.mod_small.
Qed.

Lemma value_repr (d : ity) (v : Z) : in_range d v -> value d (repr d v) = v.
Proof.
  unfold in_range, value, repr. pose proof (bits_pos d) as Hb.
  assert (Hp : 2 ^ bits d = 2 * 2 ^ (bits d - 1)).
  { rewrite <- Z.pow_succ_r by lia. f_equal. lia. }
  assert (0 < 2 ^ (bits d - 1)) by (apply Z.pow_pos_nonneg; lia).
  destruct (is_signed d); cbn [andb]; intros Hv.
  - destruct (Z.lt_ge_cases v 0).
    + replace (v mod 2 ^ bits d) with (v + 2 ^ bits d)
        by (apply Z.mod_unique with (-1); lia).
      destruct (Z.leb_spec (2 ^ (bits d - 1)) (v + 2 ^ bits d)); lia.
    + rewrite Z.mod_small by lia.
      destruct (Z.leb_spec (2 ^ (bits d - 1)) v); lia.
  - now apply Z.mod_small.
Qed.

(** X9. [cast] converts every lane as a C cast does. Converting to a type at
    least as wide and back gives the original vector, whatever the
    signedness of the two types; and a lane whose number the destination
    type can represent keeps that number. *)
Theorem cast_round_trip :
  forall (s d : ity) (k : nat) (x : Vec Z k) (i : Z),
    wf_vec (bits s) k x ->
    (bits s <= bits d ->
       Portable.cast d s k (Portable.cast s d k x) = x)
    /\ (in_range d (value s (index k x i)) ->
        value d (index k (Portable.cast s d k x) i) = value s (index k x i))
    /\ wf_lane (bits d) (index k (Portable.cast s d k x) i).
Proof.
  intros s d k x i Hx. split; [|split].
  - intros Hsd. apply vec_ext. intros j Hj. rewrite !index_cast.
    apply int_conv_round_trip; [assumption|].
    eapply Forall_forall; [exact Hx|apply index_In].
  - intros Hr. rewrite index_cast. now apply value_repr.
  - rewrite index_cast. apply repr_range.
Qed.

Lemma cast_round_trip_witness :
  wf_vec (bits I8) 1 (join 255 127)
  /\ Portable.cast U16 I8 1 (Portable.cast I8 U16 1 (join 255 127)) = join 255 127
  /\ Portable.cast I8 U16 1 (join 255 127) = join 65535 127
  /\ value I32 (index 1 (Portable.cast I8 I32 1 (join 255 127)) 0) = -1.
Proof.
  assert (H : wf_vec (bits I8) 1 (join 255 127)).
  { unfold wf_vec; cbn [store lo hi val app].
    repeat (apply Forall_cons; [unfold wf_lane; simpl; lia|]); apply Forall_nil. }
  split; [exact H|]. split; [|split; [reflexivity|]].
  - apply (proj1 (cast_round_trip I8 U16 1 (join 255 127) 0 H)). simpl. lia.
  - apply (proj1 (proj2 (cast_round_trip I8 I32 1 (join 255 127) 0 H))).
    unfold in_range. cbn. lia.
Defined.

(** ** Select, bit by bit *)

Ltac wf_vec_eval :=
  unfold wf_vec;
  match goal with
  | |- Forall ?P ?l => let l' := eval vm_compute in l in change (Forall P l')
  end;
  repeat (apply Forall_cons; [unfold wf_lane; simpl; lia|]); apply Forall_nil.

Lemma s_and_land (m : ity) (a b : Z) :
  wf_lane (bits m) a -> wf_lane (bits m) b -> s_and (int_ops m) a b = Z.land a b.
Proof. intros Ha Hb. symmetry. now apply lane_and. Qed.

Lemma s_or_lor (m : ity) (a b : Z) :
  wf_lane (bits m) a -> wf_lane (bits m) b -> s_or (int_ops m) a b = Z.lor a b.
Proof. intros Ha Hb. symmetry. now apply lane_or. Qed.

Lemma s_bnot_lxor (m : ity) (a : Z) :
  wf_lane (bits m) a -> s_bnot (int_ops m) a = Z.lxor a (all_ones (bits m)).
Proof. intros Ha. symmetry. now apply lane_bnot. Qed.

Lemma convert_back_wf (m : ity) (v : Z) : wf_lane (bits m) (convert_back m v).
Proof. rewrite convert_back_mod. apply mod_wf. pose proof (bits_pos m). lia. Qed.

(** One lane of the bitwise select, for any condition pattern. *)
Lemma select_bits_testbit (m : ity) (c t e j : Z) :
  wf_lane (bits m) c -> wf_lane (bits m) t -> wf_lane (bits m) e -> 0 <= j ->
  Z.testbit (select_bits m 0 c t e) j
  = if Z.testbit c j then Z.testbit t j else Z.testbit e j.
Proof.
  intros Hc Ht He Hj. pose proof (bits_pos m) as Hw.
  unfold select_bits. rewrite !pun_id.
  change (Z.testbit
            (s_or (int_ops m) (s_and (int_ops m) c t)
               (s_and (int_ops m) (s_bnot (int_ops m) c) e)) j
          = if Z.testbit c j then Z.testbit t j else Z.testbit e j).
  rewrite s_or_lor by apply convert_back_wf.
  rewrite (s_and_land m (s_bnot (int_ops m) c) e) by (apply convert_back_wf || assumption).
  rewrite s_and_land, s_bnot_lxor by assumption.
  rewrite Z.lor_spec, !Z.land_spec, Z.lxor_spec, all_ones_bits by lia.
  destruct (Z.ltb_spec j (bits m)).
  - destruct (Z.testbit c j), (Z.testbit t j), (Z.testbit e j); reflexivity.
  - rewrite (wf_high_bits (bits m) c j), (wf_high_bits (bits m) e j) by (assumption || lia).
    reflexivity.
Qed.

Lemma index_wf (w : Z) (k : nat) (x : Vec Z k) (i : Z) :
  wf_vec w k x -> wf_lane w (index k x i).
Proof. intros Hx. eapply Forall_forall; [exact Hx|apply index_In]. Qed.

(** ** Builds with vector instructions *)

(** The lane counts the specialisations test for. *)
Lemma lanes_eqb_8 (k : nat) : (lanes k =? 8) = (k =? 3)%nat.
Proof.
  destruct k as [|[|[|[|k]]]]; try reflexivity.
  rewrite !lanes_S. pose proof (lanes_pos k). cbn [Nat.eqb]. apply Z.eqb_neq. lia.
Qed.

Lemma lanes_eqb_4 (k : nat) : (lanes k =? 4) = (k =? 2)%nat.
Proof.
  destruct k as [|[|[|k]]]; try reflexivity.
  rewrite !lanes_S. pose proof (lanes_pos k). cbn [Nat.eqb]. apply Z.eqb_neq. lia.
Qed.

Lemma lanes_gt_4 (k : nat) : (4 <? lanes k) = (3 <=? k)%nat.
Proof.
  destruct k as [|[|[|k]]]; try reflexivity.
  rewrite !lanes_S. pose proof (lanes_pos k). cbn [Nat.leb]. apply Z.ltb_lt. lia.
Qed.

Lemma map3_map2 {A : Type} (f : A -> A -> A -> A) (u v w : list A) :
  map3 f u v w
  = Native.map2 (fun p c => f (fst p) (snd p) c) (Native.map2 pair u v) w.
Proof.
  revert v w. induction u as [|a u IH]; intros [|b v] [|c w]; cbn; try reflexivity.
  f_equal. apply IH.
Qed.

(** A three-operand instruction acts lane by lane. *)
Lemma index_vext_ternary (f : Z -> Z -> Z -> Z) (k : nat) (x y z : Vec Z k) (i : Z) :
  index k (bit_pun 0 k (map3 f (store k x) (store k y) (store k z))) i
  = f (index k x i) (index k y i) (index k z i).
Proof.
  rewrite map3_map2, <- (store_halves2 pair k x y).
  rewrite (vext_binary 0 (fun p c => f (fst p) (snd p) c) k (Portable.halves2 pair k x y) z).
  rewrite !index_halves2. reflexivity.
Qed.

(** One lane of [if_then_else] on any build: a blend, a bitwise select by
    [vbslq_f32], or the default. *)
Lemma index_if_then_else_on (tgt : Target) (T : ty) (k : nat) (c t e : Vec Z k) (i : Z) :
  index k (if_then_else_on tgt T k c t e) i
  = if blend_lanes tgt T k
    then blendv_lane (index k e i) (index k t i) (index k c i)
    else if ARM_NEON tgt && ((sizeof T =? 4) && (2 <=? k)%nat)
    then vbsl_lane (index k c i) (index k t i) (index k e i)
    else select_bits (Mask T) 0 (index k c i) (index k t i) (index k e i).
Proof.
  unfold blend_lanes. destruct tgt as [avx sse neon f16 a64]. cbn [AVX SSE4_1 ARM_NEON].
  remember (sizeof T =? 4) as s4 eqn:Es4.
  revert c t e i. induction k as [|k IH]; intros c t e i.
  - cbn [Nat.leb]. rewrite !andb_false_r. reflexivity.
  - cbn [if_then_else_on AVX SSE4_1 ARM_NEON].
    rewrite lanes_eqb_8, lanes_eqb_4, lanes_gt_4, <- Es4.
    unfold _mm256_blendv_ps, _mm_blendv_ps, vbslq_f32.
    assert (Hrec : forall c' t' e' : Vec Z (S k),
               index (S k) (join (if_then_else_on {| AVX := avx; SSE4_1 := sse; ARM_NEON := neon;
                                                   F16C := f16; aarch64 := a64 |} T k (lo c') (lo t') (lo e'))
                                 (if_then_else_on {| AVX := avx; SSE4_1 := sse; ARM_NEON := neon;
                                                   F16C := f16; aarch64 := a64 |} T k (hi c') (hi t') (hi e'))) i
               = if s4 && (avx && (3 <=? k)%nat || sse && (2 <=? k)%nat)
                 then blendv_lane (index (S k) e' i) (index (S k) t' i) (index (S k) c' i)
                 else if neon && (s4 && (2 <=? k)%nat)
                 then vbsl_lane (index (S k) c' i) (index (S k) t' i) (index (S k) e' i)
                 else select_bits (Mask T) 0 (index (S k) c' i) (index (S k) t' i) (index (S k) e' i)).
    { intros c' t' e'. cbn [index lo hi]. destruct (i <? lanes (S k) / 2); apply IH. }
    destruct k as [|[|[|k]]]; cbn [Nat.eqb Nat.leb] in *;
      destruct s4, avx, sse, neon; cbn [andb orb] in *;
      first [ apply index_vext_ternary | apply index_select_bits | apply Hrec ].
Qed.

Lemma sizeof_4 (T : ty) : (sizeof T =? 4) = true -> size_bits T = 32.
Proof. destruct T as [[]| |]; cbn; intros H; (reflexivity || discriminate H). Qed.

(** [vbslq_f32] is the bitwise default. *)
Lemma vbsl_is_select (m : ity) (c t e : Z) :
  wf_lane (bits m) c -> wf_lane (bits m) t -> wf_lane (bits m) e ->
  vbsl_lane c t e = select_bits m 0 c t e.
Proof.
  intros Hc Ht He. apply Z.bits_inj'. intros j Hj.
  rewrite select_bits_testbit by assumption.
  unfold vbsl_lane. rewrite Z.lor_spec, !Z.land_spec, Z.lnot_spec by exact Hj.
  destruct (Z.testbit c j), (Z.testbit t j), (Z.testbit e j); reflexivity.
Qed.

(** Where the dispatch does not end in a blend instruction, every lane is the
    bitwise select. *)
Lemma if_then_else_on_bitwise (tgt : Target) (T : ty) (k : nat) (c t e : Vec Z k) (i : Z) :
  blend_lanes tgt T k = false ->
  wf_lane (size_bits T) (index k c i) -> wf_lane (size_bits T) (index k t i) ->
  wf_lane (size_bits T) (index k e i) ->
  index k (if_then_else_on tgt T k c t e) i
  = select_bits (Mask T) 0 (index k c i) (index k t i) (index k e i).
Proof.
  intros Hb Hc Ht He. rewrite index_if_then_else_on, Hb.
  destruct (ARM_NEON tgt && ((sizeof T =? 4) && (2 <=? k)%nat)); [|reflexivity].
  rewrite <- bits_Mask in *. now apply vbsl_is_select.
Qed.

(** A blend instruction and the bitwise select agree on a condition lane that
    is all ones or zero. *)
Lemma if_then_else_on_mask_lane (tgt : Target) (T : ty) (k : nat) (c t e : Vec Z k) (i : Z) :
  index k c i = 0 \/ index k c i = all_ones (size_bits T) ->
  wf_lane (size_bits T) (index k t i) -> wf_lane (size_bits T) (index k e i) ->
  index k (if_then_else_on tgt T k c t e) i
  = select_bits (Mask T) 0 (index k c i) (index k t i) (index k e i).
Proof.
  intros Hc Ht He.
  assert (Hpos : 0 <= size_bits T) by (rewrite <- bits_Mask; pose proof (bits_pos (Mask T)); lia).
  destruct (blend_lanes tgt T k) eqn:Hb.
  - rewrite index_if_then_else_on, Hb.
    assert (Hs : size_bits T = 32).
    { apply sizeof_4. unfold blend_lanes in Hb. now apply andb_prop in Hb as [Hb _]. }
    rewrite <- bits_Mask in *.
    destruct (select_lane (Mask T) _ _ Ht He) as [H1 H0].
    unfold blendv_lane. destruct Hc as [-> | ->].
    + rewrite H0. reflexivity.
    + rewrite H1, Hs. reflexivity.
  - apply if_then_else_on_bitwise; try assumption.
    destruct Hc as [-> | ->]; [now apply zero_wf|now apply all_ones_wf].
Qed.

Lemma if_then_else_on_masks (tgt : Target) (T : ty) (k : nat) (c t e : Vec Z k) :
  (forall i, index k c i = 0 \/ index k c i = all_ones (size_bits T)) ->
  (forall i, wf_lane (size_bits T) (index k t i)) ->
  (forall i, wf_lane (size_bits T) (index k e i)) ->
  if_then_else_on tgt T k c t e = if_then_else T k c t e.
Proof.
  intros Hc Ht He. apply vec_ext. intros i _.
  rewrite if_then_else_on_mask_lane, index_if_then_else by auto. reflexivity.
Qed.

(** The default conversions select with a comparison mask, so they are the
    same function on every build. *)
Lemma to_half_finite_ftz_on_any (tgt : Target) (k : nat) (x : Vec Z k) :
  to_half_finite_ftz_on tgt k x = to_half_finite_ftz k x.
Proof.
  unfold to_half_finite_ftz_on, to_half_finite_ftz. cbv zeta. f_equal.
  apply if_then_else_on_masks; intros i.
  - unfold Portable.op_lt. rewrite index_halves2. cbn [s_type int_ops Mask size_bits bits].
    rewrite mask_of_bool_U32. match goal with |- context [if ?b then _ else _] => destruct b end; auto.
  - rewrite index_splat_int. apply repr_range.
  - unfold Portable.op_sub. rewrite index_halves2, s_sub_mod. apply (mod_wf 32). lia.
Qed.

Lemma from_half_finite_ftz_on_any (tgt : Target) (k : nat) (x : Vec Z k) :
  from_half_finite_ftz_on tgt k x = from_half_finite_ftz k x.
Proof.
  unfold from_half_finite_ftz_on, from_half_finite_ftz. cbv zeta.
  apply if_then_else_on_masks; intros i; rewrite ?pun_id.
  - unfold Portable.op_lt. rewrite index_halves2. cbn [s_type int_ops Mask size_bits bits].
    rewrite mask_of_bool_U32. match goal with |- context [if ?b then _ else _] => destruct b end; auto.
  - rewrite index_splat. apply (zero_wf 32). lia.
  - unfold Portable.op_add at 1. rewrite index_halves2, s_add_mod. apply (mod_wf 32). lia.
Qed.

(** Without a conversion instruction at the width at hand, [to_half] and
    [from_half] are the functions of the default build. *)
Lemma to_half_on_default (tgt : Target) (k : nat) (x : Vec Z k) :
  hardware_half tgt k = false -> to_half_on tgt k x = to_half k x.
Proof.
  unfold hardware_half. destruct tgt as [avx sse neon f16 a64]. cbn [F16C aarch64].
  revert x. induction k as [|k IH]; intros x Hhw.
  - apply to_half_finite_ftz_on_any.
  - cbn [to_half_on to_half F16C aarch64].
    rewrite lanes_eqb_8, lanes_eqb_4, lanes_gt_4.
    destruct k as [|[|[|k]]]; cbn [Nat.eqb Nat.leb] in *;
      destruct f16, a64; cbn [andb orb] in *; try discriminate Hhw;
      rewrite ?IH by reflexivity; try reflexivity; apply to_half_finite_ftz_on_any.
Qed.

Lemma from_half_on_default (tgt : Target) (k : nat) (x : Vec Z k) :
  hardware_half tgt k = false -> from_half_on tgt k x = from_half k x.
Proof.
  unfold hardware_half. destruct tgt as [avx sse neon f16 a64]. cbn [F16C aarch64].
  revert x. induction k as [|k IH]; intros x Hhw.
  - apply from_half_finite_ftz_on_any.
  - cbn [from_half_on from_half F16C aarch64].
    rewrite lanes_eqb_8, lanes_eqb_4, lanes_gt_4.
    destruct k as [|[|[|k]]]; cbn [Nat.eqb Nat.leb] in *;
      destruct f16, a64; cbn [andb orb] in *; try discriminate Hhw;
      rewrite ?IH by reflexivity; try reflexivity; apply from_half_finite_ftz_on_any.
Qed.

(** With one, every lane is converted by the instruction. *)
Lemma to_half_on_hardware (tgt : Target) (k : nat) (x : Vec Z k) (i : Z) :
  hardware_half tgt k = true ->
  index k (to_half_on tgt k x) i = float_to_half_rne (index k x i).
Proof.
  unfold hardware_half. destruct tgt as [avx sse neon f16 a64]. cbn [F16C aarch64].
  revert x i. induction k as [|k IH]; intros x i Hhw.
  - cbn [Nat.leb] in Hhw. rewrite !andb_false_r in Hhw. discriminate Hhw.
  - cbn [to_half_on F16C aarch64].
    rewrite lanes_eqb_8, lanes_eqb_4, lanes_gt_4.
    unfold _mm256_cvtps_ph, vcvt_f16_f32.
    assert (Hrec : (f16 && (3 <=? k)%nat || a64 && (2 <=? k)%nat) = true ->
               index (S k) (join (to_half_on {| AVX := avx; SSE4_1 := sse; ARM_NEON := neon;
                                               F16C := f16; aarch64 := a64 |} k (lo x))
                                 (to_half_on {| AVX := avx; SSE4_1 := sse; ARM_NEON := neon;
                                               F16C := f16; aarch64 := a64 |} k (hi x))) i
               = float_to_half_rne (index (S k) x i)).
    { intros H. cbn [index lo hi]. destruct (i <? lanes (S k) / 2); now apply IH. }
    destruct k as [|[|[|k]]]; cbn [Nat.eqb Nat.leb] in *;
      destruct f16, a64; cbn [andb orb] in *; try discriminate Hhw;
      first [ rewrite vext_unary; apply index_halves1 | now apply Hrec ].
Qed.

Lemma from_half_on_hardware (tgt : Target) (k : nat) (x : Vec Z k) (i : Z) :
  hardware_half tgt k = true ->
  index k (from_half_on tgt k x) i = half_to_float_exact (index k x i).
Proof.
  unfold hardware_half. destruct tgt as [avx sse neon f16 a64]. cbn [F16C aarch64].
  revert x i. induction k as [|k IH]; intros x i Hhw.
  - cbn [Nat.leb] in Hhw. rewrite !andb_false_r in Hhw. discriminate Hhw.
  - cbn [from_half_on F16C aarch64].
    rewrite lanes_eqb_8, lanes_eqb_4, lanes_gt_4.
    unfold _mm256_cvtph_ps, vcvt_f32_f16.
    assert (Hrec : (f16 && (3 <=? k)%nat || a64 && (2 <=? k)%nat) = true ->
               index (S k) (join (from_half_on {| AVX := avx; SSE4_1 := sse; ARM_NEON := neon;
                                               F16C := f16; aarch64 := a64 |} k (lo x))
                                 (from_half_on {| AVX := avx; SSE4_1 := sse; ARM_NEON := neon;
                                               F16C := f16; aarch64 := a64 |} k (hi x))) i
               = half_to_float_exact (index (S k) x i)).
    { intros H. cbn [index lo hi]. destruct (i <? lanes (S k) / 2); now apply IH. }
    destruct k as [|[|[|k]]]; cbn [Nat.eqb Nat.leb] in *;
      destruct f16, a64; cbn [andb orb] in *; try discriminate Hhw;
      first [ rewrite vext_unary; apply index_halves1 | now apply Hrec ].
Qed.

(** The conversion instructions return a normal half unchanged. *)
Lemma hardware_round_trip (h : Z) :
  wf_lane 16 h -> 1 <= half_exponent h <= 30 ->
  float_to_half_rne (half_to_float_exact h) = h.
Proof.
  intros Hh He. unfold wf_lane in Hh. unfold half_to_float_exact. cbv zeta.
  rewrite half_exponent_div in *. rewrite half_mantissa_mod, Z.shiftr_div_pow2 by lia.
  change (2 ^ 16) with 65536 in *. change (2 ^ 15) with 32768 in *.
  change (2 ^ 10) with 1024 in *. change (2 ^ 5) with 32 in *.
  change (2 ^ 13) with 8192. change (2 ^ 31) with 2147483648. change (2 ^ 23) with 8388608.
  remember (h / 32768) as s eqn:Es.
  remember ((h / 1024) mod 32) as e eqn:Ee.
  remember (h mod 1024) as m eqn:Em.
  assert (Hdec : h = s * 32768 + e * 1024 + m /\ 0 <= s <= 1 /\ 0 <= m < 1024).
  { subst s e m. Z.div_mod_to_equations. lia. }
  clear Es Ee Em. destruct Hdec as [-> [Hs Hm]].
  destruct (Z.eqb_spec e 31) as [|_]; [lia|].
  destruct (Z.eqb_spec e 0) as [|_]; [lia|].
  remember (s * 2147483648 + ((e + 112) * 8388608 + m * 8192)) as f eqn:Ef.
  unfold float_to_half_rne. cbv zeta.
  rewrite float_exponent_div, float_mantissa_mod, Z.shiftr_div_pow2 by lia.
  change (2 ^ 31) with 2147483648. change (2 ^ 23) with 8388608.
  change (2 ^ 8) with 256. change (2 ^ 15) with 32768.
  assert (Hfs : f / 2147483648 = s) by (subst f; Z.div_mod_to_equations; lia).
  assert (Hfe : (f / 8388608) mod 256 = e + 112) by (subst f; Z.div_mod_to_equations; lia).
  assert (Hfm : f mod 8388608 = m * 8192) by (subst f; Z.div_mod_to_equations; lia).
  rewrite Hfs, Hfe, Hfm.
  destruct (Z.eqb_spec (e + 112) 255) as [|_]; [lia|].
  destruct (Z.leb_spec 113 (e + 112)) as [_|]; [|lia].
  unfold rne_shift. cbv zeta. change (2 ^ 13) with 8192. change (2 ^ (13 - 1)) with 4096.
  assert (Hq : ((e + 112 - 112) * 8388608 + m * 8192) / 8192 = e * 1024 + m)
    by (Z.div_mod_to_equations; lia).
  assert (Hr : ((e + 112 - 112) * 8388608 + m * 8192) mod 8192 = 0)
    by (Z.div_mod_to_equations; lia).
  rewrite Hq, Hr. cbn [Z.ltb Z.eqb Z.compare orb andb]. lia.
Qed.

(** The conversion instruction gives a subnormal half its value, which is
    not zero. *)
Lemma hardware_keeps_subnormal (h : Z) :
  wf_lane 16 h -> half_exponent h = 0 -> half_mantissa h <> 0 ->
  half_to_float_exact h <> float_zero.
Proof.
  intros Hh He Hm. unfold half_to_float_exact, float_zero. cbv zeta. rewrite He.
  rewrite half_mantissa_mod in *. rewrite Z.shiftr_div_pow2 by lia.
  unfold wf_lane in Hh.
  pose proof (Z.mod_pos_bound h (2 ^ 10) ltac:(reflexivity)) as Hmr.
  assert (Hs : 0 <= h / 2 ^ 15) by (apply Z.div_pos; [lia|reflexivity]).
  remember (h mod 2 ^ 10) as m eqn:Em. clear Em.
  change (0 =? 31) with false. change (0 =? 0) with true. cbv iota.
  destruct (Z.eqb_spec m 0) as [|_]; [contradiction|].
  pose proof (Z.log2_nonneg m) as Hl.
  destruct (Z.log2_spec m ltac:(lia)) as [Hlo _].
  assert (0 <= (m - 2 ^ Z.log2 m) * 2 ^ (23 - Z.log2 m))
    by (apply Z.mul_nonneg_nonneg; [lia|apply Z.pow_nonneg; lia]).
  change (2 ^ 31) with 2147483648. change (2 ^ 23) with 8388608. lia.
Qed.

(** The conversion instruction rounds a float from [2^-24] up to [2^-14] to a
    subnormal half or to the smallest normal half, not to zero. *)
Lemma hardware_keeps_small (f : Z) :
  wf_lane 32 f -> 103 <= float_exponent f <= 112 -> float_to_half_rne f <> 0.
Proof.
  intros Hf He. unfold float_to_half_rne. cbv zeta.
  rewrite float_mantissa_mod, Z.shiftr_div_pow2 by lia.
  unfold wf_lane in Hf.
  assert (Hs : 0 <= f / 2 ^ 31) by (apply Z.div_pos; [lia|reflexivity]).
  pose proof (Z.mod_pos_bound f (2 ^ 23) ltac:(reflexivity)) as Hmr.
  remember (f mod 2 ^ 23) as m eqn:Em. clear Em.
  remember (float_exponent f) as e eqn:Ee. clear Ee.
  destruct (Z.eqb_spec e 255) as [|_]; [lia|].
  destruct (Z.leb_spec 113 e) as [|_]; [lia|].
  destruct (Z.eqb_spec e 0) as [|_]; [lia|].
  rewrite Z.max_l by lia.
  assert (Hq : 1 <= (2 ^ 23 + m) / 2 ^ (126 - e)).
  { apply Z.div_le_lower_bound; [apply Z.pow_pos_nonneg; lia|].
    assert (2 ^ (126 - e) <= 2 ^ 23) by (apply Z.pow_le_mono_r; lia). lia. }
  unfold rne_shift. cbv zeta.
  change (2 ^ 15) with 32768.
  destruct (_ || _); lia.
Qed.


Lemma float_exponent_below_min_normal_half (f : Z) :
  float_magnitude_2p149 f < 2 ^ 135 -> float_exponent f <= 112.
Proof.
  intros Hmag. pose proof (float_below_min_normal_half f Hmag) as Hlt.
  rewrite float_exponent_div.
  change (2 ^ 31) with 2147483648 in Hlt. change (2 ^ 23) with 8388608.
  change (2 ^ 8) with 256. Z.div_mod_to_equations. lia.
Qed.

(** C7. Lane by lane, at every width and on every build: a 16-bit pattern of
    a finite normal half (any sign, exponent field from 1 to 30) is returned
    unchanged by [to_half(from_half(h))] and by the two default conversions
    [to_half_finite_ftz(from_half_finite_ftz(h))].  The default conversions
    flush: [from_half_finite_ftz] converts a subnormal half pattern (exponent
    field 0, mantissa not 0) to [0.0f], and [to_half_finite_ftz] converts a
    float whose magnitude is below [2^-14], the smallest normal half, to 0.
    [to_half] and [from_half] flush in the same way where their dispatch ends
    in the default conversions: at every width without [__F16C__] and
    [__aarch64__], below eight lanes with [__F16C__] and below four lanes
    with [__aarch64__].  Where it ends in a conversion instruction they do
    not: a subnormal half is converted to a float that is not zero, and so is
    a float from [2^-24] up to [2^-14] to a half.  The default conversions
    are the same functions on every build, and [to_half] and [from_half] are
    those of the build without the two macros wherever no conversion
    instruction is used. *)
Theorem half_float_conversions :
  forall (tgt : Target) (k : nat) (h x : Vec Z k) (i : Z),
    (wf_lane 16 (index k h i) -> 1 <= half_exponent (index k h i) <= 30 ->
       index k (to_half_on tgt k (from_half_on tgt k h)) i = index k h i
       /\ index k (to_half_finite_ftz_on tgt k (from_half_finite_ftz_on tgt k h)) i
          = index k h i)
    /\ (wf_lane 16 (index k h i) ->
        half_exponent (index k h i) = 0 -> half_mantissa (index k h i) <> 0 ->
        index k (from_half_finite_ftz_on tgt k h) i = float_zero
        /\ (hardware_half tgt k = false -> index k (from_half_on tgt k h) i = float_zero)
        /\ (hardware_half tgt k = true -> index k (from_half_on tgt k h) i <> float_zero))
    /\ (wf_lane 32 (index k x i) ->
        float_magnitude_2p149 (index k x i) < 2 ^ 135 ->
        index k (to_half_finite_ftz_on tgt k x) i = 0
        /\ (hardware_half tgt k = false -> index k (to_half_on tgt k x) i = 0)
        /\ (hardware_half tgt k = true -> 103 <= float_exponent (index k x i) ->
            index k (to_half_on tgt k x) i <> 0))
    /\ (hardware_half tgt k = false ->
        to_half_on tgt k x = to_half k x /\ from_half_on tgt k h = from_half k h)
    /\ to_half_finite_ftz_on tgt k x = to_half_finite_ftz k x
    /\ from_half_finite_ftz_on tgt k h = from_half_finite_ftz k h.
Proof.
  intros tgt k h x i. split; [|split; [|split; [|split; [|split]]]].
  - intros Hh He. destruct (half_round_trip _ Hh He) as [Hf Hrt]. split.
    + destruct (hardware_half tgt k) eqn:Hhw.
      * rewrite to_half_on_hardware, from_half_on_hardware by exact Hhw.
        now apply hardware_round_trip.
      * rewrite from_half_on_default, to_half_on_default by exact Hhw.
        rewrite to_half_arith; rewrite from_half_arith by exact Hh; assumption.
    + rewrite from_half_finite_ftz_on_any, to_half_finite_ftz_on_any.
      rewrite to_half_finite_ftz_arith;
        rewrite from_half_finite_ftz_arith by exact Hh; assumption.
  - intros Hh He Hm. split; [|split].
    + rewrite from_half_finite_ftz_on_any, from_half_finite_ftz_arith by exact Hh.
      now apply half_subnormal_flushed.
    + intros Hhw. rewrite from_half_on_default, from_half_arith by assumption.
      now apply half_subnormal_flushed.
    + intros Hhw. rewrite from_half_on_hardware by exact Hhw.
      now apply hardware_keeps_subnormal.
  - intros Hx Hmag. split; [|split].
    + rewrite to_half_finite_ftz_on_any, to_half_finite_ftz_arith by exact Hx.
      now apply float_small_flushed.
    + intros Hhw. rewrite to_half_on_default, to_half_arith by assumption.
      now apply float_small_flushed.
    + intros Hhw He. rewrite to_half_on_hardware by exact Hhw.
      apply hardware_keeps_small; [exact Hx|].
      split; [exact He|now apply float_exponent_below_min_normal_half].
  - intros Hhw. split; [now apply to_half_on_default|now apply from_half_on_default].
  - apply to_half_finite_ftz_on_any.
  - apply from_half_finite_ftz_on_any.
Qed.

(** The largest normal half of negative sign on eight lanes with [__F16C__];
    the smallest subnormal half and the float [2^-15] on four lanes with
    [__F16C__], where the default conversions are used, and on eight lanes,
    where they are not. *)
Lemma half_float_conversions_witness :
  index 3 (to_half_on x86_avx_f16c 3 (from_half_on x86_avx_f16c 3 (splat 3 0xFBFF))) 5
  = 0xFBFF
  /\ index 2 (from_half_on x86_avx_f16c 2 (splat 2 0x0001)) 0 = float_zero
  /\ index 2 (to_half_on x86_avx_f16c 2 (splat 2 0x38000000)) 0 = 0
  /\ index 3 (from_half_on x86_avx_f16c 3 (splat 3 0x0001)) 0 <> float_zero
  /\ index 3 (to_half_on x86_avx_f16c 3 (splat 3 0x38000000)) 0 <> 0.
Proof.
  pose proof (half_float_conversions x86_avx_f16c 3 (splat 3 0xFBFF) (splat 3 0x38000000) 5)
    as [H1 _].
  pose proof (half_float_conversions x86_avx_f16c 2 (splat 2 0x0001) (splat 2 0x38000000) 0)
    as [_ [H2 [H3 _]]].
  pose proof (half_float_conversions x86_avx_f16c 3 (splat 3 0x0001) (splat 3 0x38000000) 0)
    as [_ [H4 [H5 _]]].
  rewrite !index_splat in *.
  assert (Hh : wf_lane 16 0x0001) by (change (0 <= 1 < 2 ^ 16); lia).
  assert (Hx : wf_lane 32 0x38000000) by (change (0 <= 0x38000000 < 2 ^ 32); lia).
  assert (Hmag : float_magnitude_2p149 0x38000000 < 2 ^ 135)
    by (change (2 ^ 134 < 2 ^ 135); apply Z.pow_lt_mono_r; lia).
  split; [|split; [|split; [|split]]].
  - apply H1; [change (0 <= 0xFBFF < 2 ^ 16); lia|change (1 <= 30 <= 30); lia].
  - apply H2; [exact Hh|reflexivity|discriminate|reflexivity].
  - apply H3; [exact Hx|exact Hmag|reflexivity].
  - apply H4; [exact Hh|reflexivity|discriminate|reflexivity].
  - apply H5; [exact Hx|exact Hmag|reflexivity|change (103 <= 112); lia].
Defined.

(** C7 as stated fails where a conversion instruction is used: with
    [__F16C__] on eight lanes and with [__aarch64__] on four, [from_half]
    converts the smallest subnormal half to [2^-24], not to [0.0f], and
    [to_half] converts the float [2^-15] to the subnormal half [0x0200], not
    to 0. *)
Lemma hardware_conversions_do_not_flush :
  (half_exponent 0x0001 = 0 /\ half_mantissa 0x0001 <> 0
   /\ index 3 (from_half_on x86_avx_f16c 3 (splat 3 0x0001)) 0 = 0x33800000
   /\ index 2 (from_half_on arm64 2 (splat 2 0x0001)) 0 = 0x33800000
   /\ 0x33800000 <> float_zero)
  /\ (float_magnitude_2p149 0x38000000 < 2 ^ 135
      /\ index 3 (to_half_on x86_avx_f16c 3 (splat 3 0x38000000)) 0 = 0x0200
      /\ index 2 (to_half_on arm64 2 (splat 2 0x38000000)) 0 = 0x0200
      /\ 0x0200 <> 0).
Proof.
  split.
  - split; [reflexivity|]. split; [discriminate|]. split; [reflexivity|].
    split; [reflexivity|discriminate].
  - split; [change (2 ^ 134 < 2 ^ 135); apply Z.pow_lt_mono_r; lia|].
    split; [reflexivity|]. split; [reflexivity|discriminate].
Qed.

Lemma blend_lanes_default (T : ty) (k : nat) : blend_lanes default_target T k = false.
Proof. unfold blend_lanes. cbn [AVX SSE4_1 default_target andb orb]. apply andb_false_r. Qed.

(** X10. Where its dispatch does not end in a blend instruction, that is
    unless the lanes are 32 bits wide and there are eight or more of them
    with [__AVX__] or four or more with [__SSE4_1__], [if_then_else] selects
    bit by bit, for any condition pattern: bit [j] of lane [i] of the result
    is bit [j] of [t[i]] where bit [j] of [cond[i]] is set, and bit [j] of
    [e[i]] where it is clear; the specialisation for [__ARM_NEON], the
    recursion used above four lanes and the bitwise default compute the same
    vector there.  Where it ends in a blend instruction, lane [i] of the
    result is [t[i]] whole where bit 31 of [cond[i]] is set and [e[i]] whole
    where it is clear.  On the build that defines none of the macros the
    function is the bitwise default at every width and lane type. *)
Theorem select_is_bitwise :
  forall (tgt : Target) (T : ty) (k : nat) (cond t e : Vec Z k) (i j : Z),
    wf_vec (size_bits T) k cond -> wf_vec (size_bits T) k t ->
    wf_vec (size_bits T) k e -> 0 <= j ->
    (blend_lanes tgt T k = false ->
       Z.testbit (index k (if_then_else_on tgt T k cond t e) i) j
       = (if Z.testbit (index k cond i) j
          then Z.testbit (index k t i) j else Z.testbit (index k e i) j)
       /\ if_then_else_on tgt T k cond t e = select_bits (Mask T) k cond t e)
    /\ (blend_lanes tgt T k = true ->
        index k (if_then_else_on tgt T k cond t e) i
        = if Z.testbit (index k cond i) 31 then index k t i else index k e i)
    /\ if_then_else_on default_target T k cond t e = if_then_else T k cond t e
    /\ if_then_else T k cond t e = select_bits (Mask T) k cond t e.
Proof.
  intros tgt T k cond t e i j Hc Ht He Hj.
  assert (Hdef : if_then_else T k cond t e = select_bits (Mask T) k cond t e).
  { apply vec_ext. intros n _. rewrite index_if_then_else, index_select_bits. reflexivity. }
  split; [|split; [|split]].
  - intros Hb. split.
    + rewrite if_then_else_on_bitwise by auto using index_wf.
      rewrite <- bits_Mask in *. apply select_bits_testbit; auto using index_wf.
    + apply vec_ext. intros n _.
      rewrite if_then_else_on_bitwise, index_select_bits by auto using index_wf.
      reflexivity.
  - intros Hb. rewrite index_if_then_else_on, Hb. reflexivity.
  - apply vec_ext. intros n _.
    rewrite if_then_else_on_bitwise, index_if_then_else
      by auto using index_wf, blend_lanes_default.
    reflexivity.
  - exact Hdef.
Qed.

(** Eight 8-bit lanes with mixed condition patterns, with [__AVX__]; then
    eight 32-bit lanes whose condition has the low half of its bits set: the
    blend instruction returns the lanes of [e], the bitwise default a mixture
    of [t] and [e]. *)
Lemma select_is_bitwise_witness :
  store 3 (if_then_else_on x86_avx_f16c (Int U8) 3
             (Vec_init 0 3 [0x0F; 0xF0; 0xFF; 0x00; 0xAA; 0x55; 0x01; 0x80])
             (splat 3 0xFF) (splat 3 0x00))
  = [0x0F; 0xF0; 0xFF; 0x00; 0xAA; 0x55; 0x01; 0x80]
  /\ Z.testbit (index 3 (if_then_else_on x86_avx_f16c (Int U8) 3
                  (Vec_init 0 3 [0x0F; 0xF0; 0xFF; 0x00; 0xAA; 0x55; 0x01; 0x80])
                  (splat 3 0xFF) (splat 3 0x00)) 4) 1 = true
  /\ index 3 (if_then_else_on x86_avx_f16c Float 3
                (splat 3 0x0000FFFF) (splat 3 0x11111111) (splat 3 0xAAAAAAAA)) 0
     = 0xAAAAAAAA
  /\ index 3 (if_then_else Float 3
                (splat 3 0x0000FFFF) (splat 3 0x11111111) (splat 3 0xAAAAAAAA)) 0
     = 0xAAAA1111.
Proof.
  split; [reflexivity|]. split; [|split; [|reflexivity]].
  - refine (eq_trans (proj1 (proj1 (select_is_bitwise x86_avx_f16c (Int U8) 3
              (Vec_init 0 3 [0x0F; 0xF0; 0xFF; 0x00; 0xAA; 0x55; 0x01; 0x80])
              (splat 3 0xFF) (splat 3 0x00) 4 1 _ _ _ _) eq_refl)) eq_refl).
    + wf_vec_eval.
    + wf_vec_eval.
    + wf_vec_eval.
    + lia.
  - refine (eq_trans (proj1 (proj2 (select_is_bitwise x86_avx_f16c Float 3
              (splat 3 0x0000FFFF) (splat 3 0x11111111) (splat 3 0xAAAAAAAA) 0 0
              _ _ _ _)) eq_refl) eq_refl).
    + wf_vec_eval.
    + wf_vec_eval.
    + wf_vec_eval.
    + lia.
Defined.

(** X11. Complementing the condition swaps the branches:
    [if_then_else(~cond, t, e)] is [if_then_else(cond, e, t)]. *)
Theorem select_complement :
  forall (T : ty) (k : nat) (cond t e : Vec Z k),
    wf_vec (size_bits T) k cond -> wf_vec (size_bits T) k t ->
    wf_vec (size_bits T) k e ->
    if_then_else T k (Portable.op_bnot (int_ops (Mask T)) k cond) t e
    = if_then_else T k cond e t.
Proof.
  intros T k cond t e Hc Ht He. pose proof (bits_pos (Mask T)) as Hw.
  rewrite <- bits_Mask in *.
  apply vec_ext. intros i _. rewrite !index_if_then_else.
  unfold Portable.op_bnot. rewrite index_halves1.
  change (select_bits (Mask T) 0 (s_bnot (int_ops (Mask T)) (index k cond i))
            (index k t i) (index k e i)
          = select_bits (Mask T) 0 (index k cond i) (index k e i) (index k t i)).
  pose proof (index_wf _ k cond i Hc) as Hci.
  pose proof (index_wf _ k t i Ht) as Hti.
  pose proof (index_wf _ k e i He) as Hei.
  apply Z.bits_inj'. intros j Hj.
  rewrite !select_bits_testbit by (assumption || apply convert_back_wf).
  rewrite s_bnot_lxor, Z.lxor_spec, all_ones_bits by (assumption || lia).
  destruct (Z.ltb_spec j (bits (Mask T))).
  - destruct (Z.testbit (index k cond i) j); reflexivity.
  - rewrite (wf_high_bits (bits (Mask T)) (index k cond i) j),
      (wf_high_bits (bits (Mask T)) (index k t i) j),
      (wf_high_bits (bits (Mask T)) (index k e i) j) by (assumption || lia).
    reflexivity.
Qed.

Lemma select_complement_witness :
  if_then_else Float 1 (Portable.op_bnot (int_ops I32) 1 (join 0xFFFFFFFF 0))
    (join 1 2) (join 3 4)
  = join 3 2
  /\ if_then_else Float 1 (Portable.op_bnot (int_ops I32) 1 (join 0xFFFFFFFF 0))
       (join 1 2) (join 3 4)
     = if_then_else Float 1 (join 0xFFFFFFFF 0) (join 3 4) (join 1 2).
Proof.
  split; [reflexivity|].
  apply (select_complement Float 1 (join 0xFFFFFFFF 0) (join 1 2) (join 3 4));
    wf_vec_eval.
Defined.

(** ** Relations between the comparison masks *)

Lemma halves1_halves2 {A B C D : Type} (g : C -> D) (f : A -> B -> C)
      (k : nat) (x : Vec A k) (y : Vec B k) :
  Portable.halves1 g k (Portable.halves2 f k x y)
  = Portable.halves2 (fun a b => g (f a b)) k x y.
Proof.
  revert x y. induction k as [|k IH]; intros x y.
  - reflexivity.
  - cbn [Portable.halves1 Portable.halves2 lo hi]. now rewrite !IH.
Qed.

Lemma halves2_ext_all {A B C : Type} (f g : A -> B -> C) (k : nat)
      (x : Vec A k) (y : Vec B k) :
  (forall a b, f a b = g a b) -> Portable.halves2 f k x y = Portable.halves2 g k x y.
Proof.
  intros H. revert x y. induction k as [|k IH]; intros x y.
  - apply H.
  - cbn [Portable.halves2]. now rewrite !IH.
Qed.

Lemma halves2_swap {A B C : Type} (f : A -> B -> C) (k : nat)
      (x : Vec A k) (y : Vec B k) :
  Portable.halves2 f k x y = Portable.halves2 (fun b a => f a b) k y x.
Proof.
  revert x y. induction k as [|k IH]; intros x y.
  - reflexivity.
  - cbn [Portable.halves2]. now rewrite !IH.
Qed.

Lemma bnot_mask (m : ity) (b : bool) :
  s_bnot (int_ops m) (Portable.mask_of_bool m b) = Portable.mask_of_bool m (negb b).
Proof.
  pose proof (bits_pos m) as Hw.
  rewrite !mask_of_bool_all_ones.
  rewrite s_bnot_lxor by (destruct b; [apply all_ones_wf|apply zero_wf]; lia).
  destruct b; cbn [negb]; [apply Z.lxor_nilpotent|apply Z.lxor_0_l].
Qed.

(** X12. On integer lanes the six comparison masks are tied by bitwise NOT and
    by swapping the operands: [x != y] is [~(x == y)], [x >= y] is [~(x < y)],
    [x <= y] is [~(x > y)], and [x > y] is [y < x]. *)
Theorem comparison_masks_complement :
  forall (t : ity) (k : nat) (x y : Vec Z k),
    Portable.op_ne (int_ops t) k x y
    = Portable.op_bnot (int_ops t) k (Portable.op_eq (int_ops t) k x y)
    /\ Portable.op_ge (int_ops t) k x y
       = Portable.op_bnot (int_ops t) k (Portable.op_lt (int_ops t) k x y)
    /\ Portable.op_le (int_ops t) k x y
       = Portable.op_bnot (int_ops t) k (Portable.op_gt (int_ops t) k x y)
    /\ Portable.op_gt (int_ops t) k x y = Portable.op_lt (int_ops t) k y x.
Proof.
  intros t k x y.
  unfold Portable.op_ne, Portable.op_ge, Portable.op_le, Portable.op_gt,
    Portable.op_eq, Portable.op_lt, Portable.op_bnot.
  rewrite !halves1_halves2. cbn [Mask s_type int_ops s_eq s_ne s_le s_ge s_lt s_gt].
  repeat split.
  - apply halves2_ext_all. intros a b. now rewrite bnot_mask.
  - apply halves2_ext_all. intros a b. now rewrite bnot_mask, Z.leb_antisym.
  - apply halves2_ext_all. intros a b. now rewrite bnot_mask, Z.leb_antisym.
  - apply halves2_swap.
Qed.

(** ** The half-float conversions, field by field *)

Lemma from_half_bits_fields (h : Z) :
  wf_lane 16 h ->
  wf_lane 32 (from_half_bits h)
  /\ (from_half_bits h = 0 \/ 113 <= float_exponent (from_half_bits h) <= 143)
  /\ (1 <= half_exponent h ->
      float_exponent (from_half_bits h) = half_exponent h + 112
      /\ float_mantissa (from_half_bits h) = half_mantissa h * 2 ^ 13
      /\ from_half_bits h / 2 ^ 31 = h / 2 ^ 15).
Proof.
  unfold wf_lane. intros Hh.
  rewrite !float_exponent_div, !float_mantissa_mod, half_exponent_div, half_mantissa_mod.
  unfold from_half_bits.
  change (2 ^ 16) with 65536 in *. change (2 ^ 15) with 32768 in *.
  change (2 ^ 10) with 1024 in *. change (2 ^ 5) with 32 in *.
  change (2 ^ 13) with 8192 in *. change (2 ^ 31) with 2147483648 in *.
  change (2 ^ 23) with 8388608 in *. change (2 ^ 32) with 4294967296 in *.
  change (2 ^ 8) with 256 in *.
  destruct (Z.ltb_spec (h mod 32768) 1024) as [Hd|Hd].
  - split; [lia|]. split; [left; reflexivity|].
    intros He. exfalso. Z.div_mod_to_equations. lia.
  - destruct (Z.ltb_spec h 32768) as [Hs|Hs].
    + repeat split; try right; Z.div_mod_to_equations; lia.
    + repeat split; try right; Z.div_mod_to_equations; lia.
Qed.

(** X13. [from_half] decodes exactly: for a 16-bit lane with a non-zero
    exponent field the float has the same sign bit, the exponent field
    rebiased by 112 and the mantissa moved up by 13 bits, so it is the same
    number.  On every 16-bit lane the result is either [0.0f] or a float with
    exponent field from 113 to 143: never a subnormal, an infinity or a NaN,
    even for the half patterns of infinity and NaN. *)
Theorem from_half_fields :
  forall (k : nat) (h : Vec Z k) (i : Z),
    wf_lane 16 (index k h i) ->
    wf_lane 32 (index k (from_half k h) i)
    /\ (index k (from_half k h) i = 0
        \/ 113 <= float_exponent (index k (from_half k h) i) <= 143)
    /\ (1 <= half_exponent (index k h i) ->
        float_exponent (index k (from_half k h) i) = half_exponent (index k h i) + 112
        /\ float_mantissa (index k (from_half k h) i)
           = half_mantissa (index k h i) * 2 ^ 13
        /\ index k (from_half k h) i / 2 ^ 31 = index k h i / 2 ^ 15).
Proof.
  intros k h i Hh. rewrite from_half_arith by exact Hh.
  now apply from_half_bits_fields.
Qed.

Lemma from_half_fields_witness :
  wf_lane 16 (index 0 (0xFC00 : Vec Z 0) 0)
  /\ float_exponent (index 0 (from_half 0 (0xFC00 : Vec Z 0)) 0) = 143
  /\ index 0 (from_half 0 (0xFC00 : Vec Z 0)) 0 = 0xC7800000.
Proof.
  assert (H : wf_lane 16 (index 0 (0xFC00 : Vec Z 0) 0))
    by (change (0 <= 0xFC00 < 2 ^ 16); lia).
  split; [exact H|]. split; [|reflexivity].
  refine (eq_trans (proj1 (proj2 (proj2 (from_half_fields 0 0xFC00 0 H)) _)) eq_refl).
  change (1 <= 31). lia.
Defined.

Lemma to_half_bits_fields (f : Z) :
  wf_lane 32 f -> 113 <= float_exponent f <= 142 ->
  wf_lane 16 (to_half_bits f)
  /\ half_exponent (to_half_bits f) = float_exponent f - 112
  /\ half_mantissa (to_half_bits f) = float_mantissa f / 2 ^ 13
  /\ to_half_bits f / 2 ^ 15 = f / 2 ^ 31
  /\ from_half_bits (to_half_bits f) = f - f mod 2 ^ 13.
Proof.
  unfold wf_lane. intros Hf.
  rewrite !float_exponent_div, !float_mantissa_mod, half_exponent_div, half_mantissa_mod.
  intros He. unfold to_half_bits.
  change (2 ^ 16) with 65536 in *. change (2 ^ 15) with 32768 in *.
  change (2 ^ 10) with 1024 in *. change (2 ^ 5) with 32 in *.
  change (2 ^ 13) with 8192 in *. change (2 ^ 31) with 2147483648 in *.
  change (2 ^ 23) with 8388608 in *. change (2 ^ 32) with 4294967296 in *.
  change (2 ^ 8) with 256 in *.
  destruct (Z.ltb_spec (f mod 2147483648) 947912704) as [Hd|Hd].
  { exfalso. Z.div_mod_to_equations. lia. }
  remember (f mod 2147483648 / 8192) as q eqn:Eq.
  assert (Hq : 115712 <= q < 147456 /\ q * 8192 + f mod 8192 = f mod 2147483648
               /\ (f / 8388608) mod 256 = q / 1024 /\ (f mod 8388608) / 8192 = q mod 1024).
  { subst q. Z.div_mod_to_equations. lia. }
  destruct Hq as [Hqr [Hqf [Hqe Hqm]]]. rewrite Hqe, Hqm in *.
  remember (if f <? 2147483648 then 0 else 32768) as s eqn:Es.
  assert (Hs : (s = 0 /\ f < 2147483648) \/ (s = 32768 /\ 2147483648 <= f)).
  { subst s. destruct (Z.ltb_spec f 2147483648); lia. }
  clear Es.
  rewrite (Z.mod_small (s + q - 114688)) by lia.
  assert (Hh : s + q - 114688 = s + (q - 114688) /\ 1024 <= q - 114688 < 32768) by lia.
  unfold from_half_bits.
  change (2 ^ 15) with 32768 in *. change (2 ^ 13) with 8192 in *.
  change (2 ^ 31) with 2147483648 in *. change (2 ^ 23) with 8388608 in *.
  assert (Hem : (s + q - 114688) mod 32768 = q - 114688).
  { destruct Hs as [[-> _]|[-> _]]; Z.div_mod_to_equations; lia. }
  rewrite Hem.
  destruct (Z.ltb_spec (q - 114688) 1024) as [|_]; [lia|].
  split; [lia|]. split; [destruct Hs as [[-> _]|[-> _]]; Z.div_mod_to_equations; lia|].
  split; [destruct Hs as [[-> _]|[-> _]]; Z.div_mod_to_equations; lia|].
  split; [destruct Hs as [[-> ?]|[-> ?]]; Z.div_mod_to_equations; lia|].
  destruct Hs as [[-> Hlt]|[-> Hge]].
  - destruct (Z.ltb_spec (0 + q - 114688) 32768); [|lia].
    Z.div_mod_to_equations. lia.
  - destruct (Z.ltb_spec (32768 + q - 114688) 32768); [lia|].
    Z.div_mod_to_equations. lia.
Qed.

(** X14. [to_half] truncates. For a float lane whose exponent field is from
    113 to 142 (magnitude from [2^-14] up to, not including, 65536) the half
    has the same sign bit, the exponent field rebiased by 112 and the top ten
    mantissa bits; converting back with [from_half] gives the float with its
    low 13 mantissa bits cleared, so the conversion rounds toward zero and is
    exact when those bits are zero. *)
Theorem to_half_truncates :
  forall (k : nat) (x : Vec Z k) (i : Z),
    wf_lane 32 (index k x i) -> 113 <= float_exponent (index k x i) <= 142 ->
    half_exponent (index k (to_half k x) i) = float_exponent (index k x i) - 112
    /\ half_mantissa (index k (to_half k x) i) = float_mantissa (index k x i) / 2 ^ 13
    /\ index k (to_half k x) i / 2 ^ 15 = index k x i / 2 ^ 31
    /\ index k (from_half k (to_half k x)) i = index k x i - index k x i mod 2 ^ 13.
Proof.
  intros k x i Hx He.
  destruct (to_half_bits_fields _ Hx He) as [Hwf [H1 [H2 [H3 H4]]]].
  rewrite from_half_arith; rewrite to_half_arith by exact Hx; auto.
Qed.

Lemma to_half_truncates_witness :
  wf_lane 32 (index 0 (0x3F801FFF : Vec Z 0) 0)
  /\ index 0 (to_half 0 (0x3F801FFF : Vec Z 0)) 0 = 0x3C00
  /\ index 0 (from_half 0 (to_half 0 (0x3F801FFF : Vec Z 0))) 0 = 0x3F800000.
Proof.
  assert (H : wf_lane 32 (index 0 (0x3F801FFF : Vec Z 0) 0))
    by (change (0 <= 0x3F801FFF < 2 ^ 32); lia).
  split; [exact H|]. split; [reflexivity|].
  refine (eq_trans (proj2 (proj2 (proj2 (to_half_truncates 0 0x3F801FFF 0 H _)))) eq_refl).
  change (113 <= 127 <= 142). lia.
Defined.

(** ** 8-bit helpers *)

Lemma div255_whole_domain_witness :
  wf_lane 16 (index 0 (65408 : Vec Z 0) 0)
  /\ index 0 (div255 0 (65408 : Vec Z 0)) 0 = 1.
Proof.
  assert (H : wf_lane 16 (index 0 (65408 : Vec Z 0) 0))
    by (change (0 <= 65408 < 2 ^ 16); lia).
  split; [exact H|].
  exact (eq_trans (div255_whole_domain 0 65408 0 H) eq_refl).
Defined.

(** X16. Scaling an 8-bit lane by an 8-bit lane never exceeds either of them:
    lane by lane, [mull(x,y)] is the exact product (at most 65025, so the
    16-bit lane does not overflow), and both [approx_scale(x,y)] and
    [div255(mull(x,y))] are at most [x] and at most [y]. *)
Theorem scaled_lane_bounded :
  forall (k : nat) (x y : Vec Z k) (i : Z),
    wf_lane 8 (index k x i) -> wf_lane 8 (index k y i) ->
    index k (mull k x y) i = index k x i * index k y i
    /\ index k (mull k x y) i <= 65025
    /\ index k (approx_scale k x y) i <= Z.min (index k x i) (index k y i)
    /\ index k (div255 k (mull k x y)) i <= Z.min (index k x i) (index k y i).
Proof.
  intros k x y i Hx Hy.
  pose proof (mull_lane k x y i Hx Hy) as Hm.
  pose proof (approx_scale_lane k x y i Hx Hy) as Ha.
  unfold wf_lane in Hx, Hy. change (2 ^ 8) with 256 in *.
  assert (Hd : index k (div255 k (mull k x y)) i
               = (index k x i * index k y i + 127) / 255).
  { rewrite <- Hm. apply div255_in_range. rewrite Hm. nia. }
  rewrite Hm, Ha, Hd. set (u := index k x i) in *. set (v := index k y i) in *.
  split; [reflexivity|]. split; [nia|]. split.
  - assert ((u * v + u) / 256 <= u) by (apply Z.div_le_upper_bound; nia).
    assert ((u * v + u) / 256 <= v).
    { apply Z.lt_succ_r. apply Z.div_lt_upper_bound; nia. }
    lia.
  - assert ((u * v + 127) / 255 <= u).
    { apply Z.lt_succ_r. apply Z.div_lt_upper_bound; nia. }
    assert ((u * v + 127) / 255 <= v).
    { apply Z.lt_succ_r. apply Z.div_lt_upper_bound; nia. }
    lia.
Qed.

Lemma scaled_lane_bounded_witness :
  wf_lane 8 (index 0 (128 : Vec Z 0) 0) /\ wf_lane 8 (index 0 (1 : Vec Z 0) 0)
  /\ index 0 (approx_scale 0 128 1) 0 <= Z.min 128 1.
Proof.
  assert (H1 : wf_lane 8 (index 0 (128 : Vec Z 0) 0)) by (change (0 <= 128 < 256); lia).
  assert (H2 : wf_lane 8 (index 0 (1 : Vec Z 0) 0)) by (change (0 <= 1 < 256); lia).
  split; [exact H1|]. split; [exact H2|].
  exact (proj1 (proj2 (proj2 (scaled_lane_bounded 0 128 1 0 H1 H2)))).
Defined.

(** ** Shuffles compose *)

Lemma store_shuffle {T : Type} (zero : T) (k k' : nat) (Ix : list Z) (x : Vec T k) :
  Z.of_nat (length Ix) = lanes k' ->
  store k' (shuffle zero k' Ix x) = map (index k x) Ix.
Proof.
  intros HIx. unfold shuffle. rewrite store_Vec_init. apply firstn_exact.
  rewrite length_map. lia.
Qed.

Lemma map_index_seq {T : Type} (k : nat) (x : Vec T k) :
  map (index k x) (map Z.of_nat (seq 0 (Z.to_nat (lanes k)))) = store k x.
Proof.
  pose proof (lanes_pos k) as Hpos.
  destruct (Z.to_nat (lanes k)) as [|n] eqn:En; [lia|].
  apply (nth_ext _ _ (index k x 0) (index k x 0)).
  - rewrite !length_map, length_seq, length_store. lia.
  - intros j Hj. rewrite !length_map, length_seq in Hj.
    rewrite (map_nth (index k x) _ 0). f_equal.
    rewrite <- En in *.
    change 0 with (Z.of_nat 0) at 1. rewrite map_nth, seq_nth by lia.
    cbn [Nat.add].
    rewrite (index_store k x (Z.of_nat j) (index k x 0)) by lia.
    now rewrite Nat2Z.id.
Qed.

(** X17. The shuffle that lists the lanes in order is the identity, and the
    shuffle that repeats one index broadcasts that lane of the source to a
    vector of any width. *)
Theorem shuffle_identity_and_broadcast :
  forall (T : Type) (zero : T) (k k' : nat) (x : Vec T k) (j : Z),
    shuffle zero k (map Z.of_nat (seq 0 (Z.to_nat (lanes k)))) x = x
    /\ shuffle zero k' (repeat j (Z.to_nat (lanes k'))) x = splat k' (index k x j).
Proof.
  intros T zero k k' x j. pose proof (lanes_pos k). pose proof (lanes_pos k').
  split; apply (store_inj zero).
  - rewrite store_shuffle by (rewrite length_map, length_seq; lia).
    apply map_index_seq.
  - rewrite store_shuffle by (rewrite repeat_length; lia).
    rewrite store_splat. apply map_repeat.
Qed.

(** X18. Two shuffles in a row are one shuffle: when every index of the second
    list is a position of the first list, [shuffle<Ix...>(shuffle<Iy...>(x))]
    is the shuffle of [x] by the indices [Iy[Ix[0]], Iy[Ix[1]], ...]. *)
Theorem shuffle_compose :
  forall (T : Type) (zero : T) (k k1 k2 : nat) (Ix Iy : list Z) (x : Vec T k),
    Z.of_nat (length Iy) = lanes k1 ->
    Forall (fun j => 0 <= j < lanes k1) Ix ->
    shuffle zero k2 Ix (shuffle zero k1 Iy x)
    = shuffle zero k2 (map (fun j => nth (Z.to_nat j) Iy 0) Ix) x.
Proof.
  intros T zero k k1 k2 Ix Iy x HIy HIx. unfold shuffle at 1 3. f_equal.
  rewrite map_map. apply map_ext_in. intros j Hj.
  rewrite Forall_forall in HIx. specialize (HIx j Hj).
  rewrite (index_store k1 _ j (index k x 0) HIx), store_shuffle by assumption.
  apply (map_nth (index k x)).
Qed.

Lemma shuffle_compose_witness :
  Z.of_nat (length [2; 1; 0; 3]) = lanes 2
  /\ Forall (fun j => 0 <= j < lanes 2) [3; 3; 0; 1; 2; 2; 1; 0]
  /\ store 3 (shuffle 0 3 [3; 3; 0; 1; 2; 2; 1; 0]
                (shuffle 0 2 [2; 1; 0; 3] (Vec_init 0 2 [10; 20; 30; 40])))
     = [40; 40; 30; 20; 10; 10; 20; 30].
Proof.
  assert (H1 : Z.of_nat (length [2; 1; 0; 3]) = lanes 2) by reflexivity.
  assert (H2 : Forall (fun j => 0 <= j < lanes 2) [3; 3; 0; 1; 2; 2; 1; 0]).
  { repeat (apply Forall_cons; [change (lanes 2) with 4; lia|]). apply Forall_nil. }
  split; [exact H1|]. split; [exact H2|].
  exact (eq_trans (f_equal (store 3)
           (shuffle_compose Z 0 2 2 3 [3; 3; 0; 1; 2; 2; 1; 0] [2; 1; 0; 3]
              (Vec_init 0 2 [10; 20; 30; 40]) H1 H2)) eq_refl).
Defined.

(** ** The two strategies, once more *)

Lemma lnot_lanes_witness :
  wf_vec (bits I16) 1 (join 0 7)
  /\ index 1 (Portable.op_lnot (int_ops I16) 1 (join 0 7)) 0 = 1
  /\ index 1 (Native.op_lnot 0 (Native.int_vext I16) 1 (join 0 7)) 0 = 65535.
Proof.
  assert (H : wf_vec (bits I16) 1 (join 0 7)) by wf_vec_by_cases.
  split; [exact H|]. split.
  - exact (eq_trans (proj1 (lnot_lanes I16 1 (join 0 7) 0 H)) eq_refl).
  - exact (eq_trans (proj2 (lnot_lanes I16 1 (join 0 7) 0 H)) eq_refl).
Defined.

(** ** The vector-extension strategy, lane by lane *)

(** X21. Whatever the element-wise meaning of the built-in operators, the
    vector-extension strategy keeps the lanes in place: reinterpreting as
    [VExt], applying the operator and reinterpreting back gives, in lane [i],
    the operator applied to lane [i] of each operand, for binary operators,
    unary operators and comparisons alike. *)
Theorem vext_keeps_lane_order :
  forall (T : Type) (zero : T) (V : Native.VExtOps T) (k : nat) (x y : Vec T k) (i : Z),
    index k (Native.op_add zero V k x y) i
    = Native.v_add V (index k x i) (index k y i)
    /\ index k (Native.op_neg zero V k x) i = Native.v_neg V (index k x i)
    /\ index k (Native.op_lt V k x y) i = Native.v_lt V (index k x i) (index k y i)
    /\ Native.to_vec zero k (Native.to_vext k x) = x.
Proof.
  intros T zero V k x y i.
  unfold Native.op_add, Native.op_neg, Native.op_lt, Native.to_vec, Native.to_vext.
  rewrite !vext_binary, vext_unary, index_halves1, !index_halves2.
  repeat split. apply bit_pun_store.
Qed.

(** * GrSamplerState *)

Lemma sampler_eq_index (a b : GrSamplerState.t) :
  GrSamplerState.asIndex_result a = GrSamplerState.asIndex_result b -> a = b.
Proof.
  destruct a as [[] [] []], b as [[] [] []]; cbv; intros H;
    first [reflexivity | discriminate H].
Qed.

(** X22. [asIndex] packs a sampler state into the tightly packed range
    [[0, kNumUniqueSamplers)] with [kNumUniqueSamplers = 48]: the value is
    always below 48 (so the assertion [result <= kNumUniqueSamplers] holds and
    the cast to [uint8_t] loses nothing), different states have different
    indices, and every value below 48 is the index of a state. *)
Theorem asIndex_packs_tightly :
  forall (a b : GrSamplerState.t) (n : Z),
    GrSamplerState.kNumUniqueSamplers = 48
    /\ 0 <= GrSamplerState.asIndex a < GrSamplerState.kNumUniqueSamplers
    /\ GrSamplerState.asIndex a = GrSamplerState.asIndex_result a
    /\ (GrSamplerState.asIndex a = GrSamplerState.asIndex b -> a = b)
    /\ (0 <= n < GrSamplerState.kNumUniqueSamplers ->
        exists s, GrSamplerState.asIndex s = n).
Proof.
  intros a b n.
  assert (Hr : 0 <= GrSamplerState.asIndex_result a < 48).
  { destruct a as [[] [] []];
      match goal with
      | |- 0 <= ?e < _ => let v := eval vm_compute in e in change e with v
      end; lia. }
  assert (Hi : forall s, GrSamplerState.asIndex s = GrSamplerState.asIndex_result s).
  { intros s. unfold GrSamplerState.asIndex. apply Z.mod_small.
    destruct s as [[] [] []];
      match goal with
      | |- 0 <= ?e < _ => let v := eval vm_compute in e in change (0 <= v < 256)
      end; lia. }
  split; [reflexivity|]. split; [rewrite Hi; exact Hr|]. split; [apply Hi|]. split.
  - rewrite !Hi. apply sampler_eq_index.
  - change GrSamplerState.kNumUniqueSamplers with 48. intros Hn.
    assert (Hw : 0 <= n mod 4 < 4 /\ 0 <= (n / 4) mod 4 < 4 /\ 0 <= n / 16 < 3
                 /\ n = n mod 4 + (n / 4) mod 4 * 4 + n / 16 * 16)
      by (Z.div_mod_to_equations; lia).
    destruct Hw as [H0 [H1 [H2 Hn']]].
    assert (W : forall v, 0 <= v < 4 -> exists w, GrSamplerState.WrapMode_int w = v).
    { intros v Hv.
      assert (v = 0 \/ v = 1 \/ v = 2 \/ v = 3) as [->|[->|[->| ->]]] by lia;
        [exists GrSamplerState.kClamp | exists GrSamplerState.kRepeat
         | exists GrSamplerState.kMirrorRepeat | exists GrSamplerState.kClampToBorder];
        reflexivity. }
    assert (F : forall v, 0 <= v < 3 -> exists f, GrSamplerState.Filter_int f = v).
    { intros v Hv.
      assert (v = 0 \/ v = 1 \/ v = 2) as [->|[->| ->]] by lia;
        [exists GrSamplerState.kNearest | exists GrSamplerState.kLinear
         | exists GrSamplerState.kMipMap]; reflexivity. }
    destruct (W _ H0) as [w0 E0], (W _ H1) as [w1 E1], (F _ H2) as [f E2].
    exists (GrSamplerState.mk w0 w1 f). rewrite Hi.
    unfold GrSamplerState.asIndex_result. cbn [GrSamplerState.fWrapModes0
      GrSamplerState.fWrapModes1 GrSamplerState.fFilter].
    rewrite E0, E1, E2.
    change (GrSamplerState.WrapMode_int GrSamplerState.WrapMode_kLast + 1) with 4. lia.
Qed.

(** X23. [operator==] holds exactly for equal states, [operator!=] exactly for
    different ones, and two states are equal exactly when their indices
    are. *)
Theorem sampler_equality :
  forall a b : GrSamplerState.t,
    (GrSamplerState.op_eq a b = true <-> a = b)
    /\ (GrSamplerState.op_ne a b = true <-> a <> b)
    /\ GrSamplerState.op_eq a b
       = (GrSamplerState.asIndex a =? GrSamplerState.asIndex b).
Proof.
  intros a b.
  assert (H : GrSamplerState.op_eq a b = true <-> a = b).
  { split.
    - destruct a as [[] [] []], b as [[] [] []]; cbv; intros H;
        first [reflexivity | discriminate H].
    - intros <-. destruct a as [[] [] []]; reflexivity. }
  split; [exact H|]. split.
  - unfold GrSamplerState.op_ne. rewrite negb_true_iff, <- not_true_iff_false.
    now rewrite H.
  - destruct a as [[] [] []], b as [[] [] []]; reflexivity.
Qed.

(** X24. [isRepeated] holds exactly when the wrap mode of at least one axis is
    [kRepeat] or [kMirrorRepeat].  It depends on the wrap modes only: changing
    the filter keeps it, and a state built from a filter alone, or by the
    default constructor, clamps on both axes and is not repeated. *)
Theorem isRepeated_characterised :
  forall (s : GrSamplerState.t) (f : GrSamplerState.Filter),
    (GrSamplerState.isRepeated s = true <->
       (GrSamplerState.wrapModeX s = GrSamplerState.kRepeat
        \/ GrSamplerState.wrapModeX s = GrSamplerState.kMirrorRepeat
        \/ GrSamplerState.wrapModeY s = GrSamplerState.kRepeat
        \/ GrSamplerState.wrapModeY s = GrSamplerState.kMirrorRepeat))
    /\ GrSamplerState.isRepeated (GrSamplerState.setFilterMode s f)
       = GrSamplerState.isRepeated s
    /\ GrSamplerState.isRepeated (GrSamplerState.of_filter f) = false
    /\ GrSamplerState.isRepeated GrSamplerState.default = false.
Proof.
  intros s f. split; [|repeat split].
  destruct s as [[] [] ff]; cbv; split; intros H;
    try reflexivity; try discriminate H; auto;
    repeat (destruct H as [H|H]; try discriminate H).
Qed.

(** * GrD3DBuffer::setResourceState *)

(** X25. [setResourceState] records a transition barrier exactly when it
    changes [fResourceState], and then the barrier goes from the old state to
    the requested one, which differ: it never records a barrier between equal
    states.  Because the test on [GENERIC_READ] uses [|], a buffer whose state
    is [D3D12_RESOURCE_STATE_GENERIC_READ] (a non-zero value) keeps that state
    and records nothing, whatever state is requested; from any other state
    the buffer ends in the requested state. *)
Theorem setResourceState_barriers :
  forall (GENERIC_READ st new : Z) (bs : list GrD3DBuffer.Barrier),
    GENERIC_READ <> 0 ->
    let r := GrD3DBuffer.setResourceState GENERIC_READ st bs new in
    (st = GENERIC_READ -> r = (st, bs))
    /\ (st <> GENERIC_READ -> fst r = new)
    /\ (r = (st, bs)
        \/ (st <> new /\ r = (new, bs ++ [GrD3DBuffer.mkBarrier st new])))
    /\ (fst r = st <-> snd r = bs).
Proof.
  intros GR st new bs HGR r. subst r. unfold GrD3DBuffer.setResourceState.
  assert (Hor : st = GR -> (Z.lor new st =? 0) = false).
  { intros ->. apply Z.eqb_neq. intros H. apply Z.lor_eq_0_iff in H. tauto. }
  destruct (Z.eqb_spec new st) as [->|Hne]; cbn [orb].
  - split; [reflexivity|]. split; [reflexivity|]. split; [left; reflexivity|].
    split; reflexivity.
  - destruct (Z.eqb_spec st GR) as [Heq|Hne2]; cbn [andb].
    + rewrite (Hor Heq). cbn [negb fst snd].
      split; [reflexivity|]. split; [contradiction|]. split; [left; reflexivity|].
      split; reflexivity.
    + cbn [fst snd]. split; [contradiction|]. split; [reflexivity|].
      split; [right; split; [congruence|reflexivity]|].
      split; intros H; [congruence|].
      exfalso. apply (f_equal (@length _)) in H.
      rewrite length_app in H. cbn in H. lia.
Qed.

(** With the value of the Direct3D 12 headers, [GENERIC_READ = 0xAC3], and
    [COPY_DEST = 0x400]: the request is ignored. *)
Lemma setResourceState_barriers_witness :
  0xAC3 <> 0
  /\ GrD3DBuffer.setResourceState 0xAC3 0xAC3 [] 0x400 = (0xAC3, []).
Proof.
  assert (H : 0xAC3 <> 0) by discriminate.
  split; [exact H|].
  exact (proj1 (setResourceState_barriers 0xAC3 0xAC3 0x400 [] H) eq_refl).
Defined.
